(** * Ghost SDK (Python): the shielded ledger of [ghost_sdk/client.py]

    A shallow embedding of [GhostClient]: commitments, nullifiers, the
    insertion-ordered dictionary of open commitments, the set of spent
    nullifiers, and the methods [generate_commitment], [generate_nullifier],
    [deposit], [withdraw], [private_transfer], [get_private_balance] and
    [generate_balance_proof]; and of [MoneroPrivacyClient] from
    [ghost_sdk/monero.py] (module [Monero]).

    Python values are modelled as follows.
    - [int] is [Z] (unbounded).
    - [bytes] is [list byte].
    - [str] is [string], holding the text in its UTF-8 encoding, so that
      [str.encode()] is the list of its bytes.
    - a [dict] is an association list in iteration (insertion) order.
    - a [set] of [str] is a [gset string].
    - a raised exception is a value of [exn]; the state at the point of the
      raise is kept, as in Python.
    - [print] calls are not modelled (they neither read nor change the
      client). *)

From Stdlib Require Import ZArith Lia List.
From Stdlib Require Import Strings.Byte Strings.Ascii Strings.String.
From stdpp Require Import gmap strings list.

Local Open Scope Z_scope.

Abbreviation bytes := (list byte).

(** ** Bytes, integers and hexadecimal text *)

Definition Z_of_byte (b : byte) : Z := Z.of_N (Byte.to_N b).

Definition byte_of_Z (z : Z) : byte :=
  match Byte.of_N (Z.to_N (z mod 256)) with
  | Some b => b
  | None => x00
  end.

(** Little-endian and big-endian digits in base 256, least [len] digits. *)
Fixpoint le_bytes (len : nat) (n : Z) : bytes :=
  match len with
  | O => []
  | S k => byte_of_Z n :: le_bytes k (n / 256)
  end.

Definition be_bytes (len : nat) (n : Z) : bytes := rev (le_bytes len n).

(** [int.from_bytes(b, 'little')]. *)
Fixpoint from_bytes_little (b : bytes) : Z :=
  match b with
  | [] => 0
  | x :: r => Z_of_byte x + 256 * from_bytes_little r
  end.

Definition hexdigits : string := "0123456789abcdef".

Definition hex_digit (n : Z) : ascii :=
  match String.get (Z.to_nat n) hexdigits with
  | Some c => c
  | None => "0"%char
  end.

(** [bytes.hex()]: two lowercase hexadecimal digits per byte. *)
Fixpoint hex (b : bytes) : string :=
  match b with
  | [] => EmptyString
  | x :: r =>
      String (hex_digit (Z_of_byte x / 16))
        (String (hex_digit (Z_of_byte x mod 16)) (hex r))
  end.

(** [str.encode()] on the UTF-8 representation. *)
Definition encode (s : string) : bytes := list_byte_of_string s.

(** ** [hashlib.sha256]: SHA-256 as in FIPS 180-4 *)

Module SHA256.

Definition two32 : Z := 2 ^ 32.

Definition add32 (x y : Z) : Z := (x + y) mod two32.

Definition rotr (n x : Z) : Z :=
  Z.lor (Z.shiftr x n) (Z.shiftl x (32 - n) mod two32).

Definition shr (n x : Z) : Z := Z.shiftr x n.

Definition Ch (x y z : Z) : Z :=
  Z.lxor (Z.land x y) (Z.land (Z.lnot x) z).

Definition Maj (x y z : Z) : Z :=
  Z.lxor (Z.lxor (Z.land x y) (Z.land x z)) (Z.land y z).

Definition Sigma0 (x : Z) : Z :=
  Z.lxor (Z.lxor (rotr 2 x) (rotr 13 x)) (rotr 22 x).
Definition Sigma1 (x : Z) : Z :=
  Z.lxor (Z.lxor (rotr 6 x) (rotr 11 x)) (rotr 25 x).
Definition sigma0 (x : Z) : Z :=
  Z.lxor (Z.lxor (rotr 7 x) (rotr 18 x)) (shr 3 x).
Definition sigma1 (x : Z) : Z :=
  Z.lxor (Z.lxor (rotr 17 x) (rotr 19 x)) (shr 10 x).

(** The first sixty-four primes. *)
Definition primes : list Z :=
  [2; 3; 5; 7; 11; 13; 17; 19; 23; 29; 31; 37; 41; 43; 47; 53;
   59; 61; 67; 71; 73; 79; 83; 89; 97; 101; 103; 107; 109; 113; 127; 131;
   137; 139; 149; 151; 157; 163; 167; 173; 179; 181; 191; 193; 197; 199;
   211; 223; 227; 229; 233; 239; 241; 251; 257; 263; 269; 271; 277; 281;
   283; 293; 307; 311].

(** Integer cube root by bisection on the bits of the root. *)
Fixpoint cbrt_bits (n : nat) (x r : Z) : Z :=
  match n with
  | O => r
  | S k =>
      let c := r + 2 ^ Z.of_nat k in
      if c * c * c <=? x then cbrt_bits k x c else cbrt_bits k x r
  end.

(** Round constants: the first 32 bits of the fractional parts of the cube
    roots of the primes; initial hash value: the same for the square roots
    of the first eight. *)
Definition K : list Z :=
  Eval vm_compute in
    map (fun p => cbrt_bits 40 (p * 2 ^ 96) 0 mod two32) primes.

Definition H0 : list Z :=
  Eval vm_compute in
    map (fun p => Z.sqrt (p * 2 ^ 64) mod two32) (firstn 8 primes).

Definition pad (msg : bytes) : bytes :=
  let l := Z.of_nat (length msg) in
  msg ++ [x80] ++ repeat x00 (Z.to_nat ((55 - l) mod 64))
      ++ be_bytes 8 (8 * l).

Fixpoint chunks (fuel : nat) (size : nat) (l : bytes) : list bytes :=
  match fuel with
  | O => []
  | S f =>
      match l with
      | [] => []
      | _ => firstn size l :: chunks f size (skipn size l)
      end
  end.

Definition word_of (b : bytes) : Z :=
  fold_left (fun acc x => acc * 256 + Z_of_byte x) b 0.

Definition words_of (block : bytes) : list Z :=
  map word_of (chunks 16 4 block).

Definition next_word (win : list Z) : Z :=
  add32 (add32 (sigma1 (nth 14 win 0)) (nth 9 win 0))
        (add32 (sigma0 (nth 1 win 0)) (nth 0 win 0)).

Definition round (st : list Z) (k w : Z) : list Z :=
  match st with
  | [a; b; c; d; e; f; g; h] =>
      let t1 := add32 (add32 (add32 h (Sigma1 e)) (add32 (Ch e f g) k)) w in
      let t2 := add32 (Sigma0 a) (Maj a b c) in
      [add32 t1 t2; a; b; c; add32 d t1; e; f; g]
  | _ => st
  end.

Fixpoint rounds (ks : list Z) (win : list Z) (st : list Z) : list Z :=
  match ks with
  | [] => st
  | k :: ks' =>
      rounds ks' (tl win ++ [next_word win]) (round st k (hd 0 win))
  end.

Fixpoint add_words (xs ys : list Z) : list Z :=
  match xs, ys with
  | x :: xs', y :: ys' => add32 x y :: add_words xs' ys'
  | _, _ => []
  end.

Definition compress (st : list Z) (block : bytes) : list Z :=
  add_words st (rounds K (words_of block) st).

Definition digest (msg : bytes) : bytes :=
  let p := pad msg in
  concat (map (be_bytes 4) (fold_left compress (chunks (length p) 64 p) H0)).

End SHA256.

(** ** Exceptions and results *)

Inductive exn : Type :=
| ValueError (msg : string)
| OverflowError (msg : string)
| KeyError (key : string).

Inductive result (A : Type) : Type :=
| Ok (a : A)
| Raise (e : exn).
Arguments Ok {A} a.
Arguments Raise {A} e.

(** The two [ValueError]s of [client.py], under the names the specification
    gives them. *)
Definition InsufficientBalance : exn := ValueError "Insufficient balance".
Definition AlreadySpent : exn := ValueError "Commitment already spent".

(** [int.to_bytes(length, 'little')] (unsigned): [OverflowError] on a negative
    integer and on one that does not fit. *)
Definition to_bytes (length : nat) (n : Z) : result bytes :=
  if n <? 0 then
    Raise (OverflowError "can't convert negative int to unsigned")
  else if 2 ^ (8 * Z.of_nat length) <=? n then
    Raise (OverflowError "int too big to convert")
  else Ok (le_bytes length n).

(** ** Python dictionaries with [str] keys, in iteration order *)

Abbreviation dict V := (list (string * V)).

Section Dict.
Context {V : Type}.

(** [k in d] *)
Fixpoint dict_contains (k : string) (d : dict V) : bool :=
  match d with
  | [] => false
  | (k', _) :: d' => if String.eqb k k' then true else dict_contains k d'
  end.

(** [d.get(k)] *)
Fixpoint dict_get (k : string) (d : dict V) : option V :=
  match d with
  | [] => None
  | (k', v) :: d' => if String.eqb k k' then Some v else dict_get k d'
  end.

(** [d[k] = v]: an existing key keeps its place and takes the new value, a
    new key goes to the end. *)
Fixpoint dict_setitem (k : string) (v : V) (d : dict V) : dict V :=
  match d with
  | [] => [(k, v)]
  | (k', v') :: d' =>
      if String.eqb k k' then (k', v) :: d'
      else (k', v') :: dict_setitem k v d'
  end.

(** [del d[k]]: [None] stands for [KeyError]. *)
Fixpoint dict_delitem (k : string) (d : dict V) : option (dict V) :=
  match d with
  | [] => None
  | (k', v') :: d' =>
      if String.eqb k k' then Some d'
      else option_map (cons (k', v')) (dict_delitem k d')
  end.

(** [d.keys()] and [d.values()] *)
Definition dict_keys (d : dict V) : list string := map fst d.
Definition dict_values (d : dict V) : list V := map snd d.

End Dict.

(** ** The client *)

(** The dictionary returned by [generate_commitment]. *)
Record Commitment : Type := mkCommitment {
  value : bytes;
  nonce : bytes;
  amount : Z
}.

(** The dictionary returned by [generate_nullifier]:
    keys ['value'] and ['commitment']. *)
Record Nullifier : Type := mkNullifier {
  nullifier_value : bytes;
  nullifier_commitment : bytes
}.

(** The dictionary returned by [generate_balance_proof]. *)
Record BalanceProof : Type := mkBalanceProof {
  proof : bytes;
  public_signals : list Z
}.

(** The fields of [GhostClient] that the ledger methods use. [private_key] is
    [bytes(self.private_key)] and [public_key] the raw bytes of
    [self.public_key], both fixed by [__init__]. *)
Record GhostClient : Type := mkGhostClient {
  private_key : bytes;
  public_key : bytes;
  commitments : dict Commitment;
  nullifiers : gset string
}.

(** The client together with the operating system's randomness: [entropy] is
    the stream of bytes that [nacl.utils.random] hands out, [drawn] how many
    of them have been taken. *)
Record World : Type := mkWorld {
  self : GhostClient;
  entropy : nat -> byte;
  drawn : nat
}.

Definition set_commitments (cs : dict Commitment) (g : GhostClient)
  : GhostClient :=
  {| private_key := private_key g; public_key := public_key g;
     commitments := cs; nullifiers := nullifiers g |}.

Definition set_nullifiers (ns : gset string) (g : GhostClient) : GhostClient :=
  {| private_key := private_key g; public_key := public_key g;
     commitments := commitments g; nullifiers := ns |}.

(** ** The monad of the methods: state and exceptions *)

Definition M (A : Type) : Type := World -> result A * World.

Definition ret {A} (a : A) : M A := fun w => (Ok a, w).

Definition bind {A B} (m : M A) (k : A -> M B) : M B :=
  fun w =>
    match m w with
    | (Ok a, w') => k a w'
    | (Raise e, w') => (Raise e, w')
    end.

Definition raise {A} (e : exn) : M A := fun w => (Raise e, w).

Definition lift {A} (r : result A) : M A := fun w => (r, w).

Definition gets {A} (f : GhostClient -> A) : M A := fun w => (Ok (f (self w)), w).

Definition modify (f : GhostClient -> GhostClient) : M unit :=
  fun w =>
    (Ok tt, {| self := f (self w); entropy := entropy w; drawn := drawn w |}).

(** [nacl.utils.random(size)] *)
Definition random (size : nat) : M bytes :=
  fun w =>
    (Ok (map (entropy w) (seq (drawn w) size)),
     {| self := self w; entropy := entropy w; drawn := (drawn w + size)%nat |}).

(** The 32 bytes that the next call of [nacl.utils.random(32)] returns. *)
Definition next_nonce (w : World) : bytes := map (entropy w) (seq (drawn w) 32).

Declare Scope ghost_scope.
Delimit Scope ghost_scope with ghost.
Notation "x <- m ;; k" := (bind m (fun x => k))
  (at level 100, m at next level, right associativity) : ghost_scope.
Notation "m ;;; k" := (bind m (fun _ => k))
  (at level 100, right associativity) : ghost_scope.

Local Open Scope ghost_scope.

(** ** The methods of [GhostClient]

    [sha256] stands for [hashlib.sha256(data).digest()]. The methods and the
    theorems take it as a parameter; the examples instantiate it with
    [SHA256.digest]. The coroutines never suspend (they await only each
    other), so each call runs from start to finish on the state. *)

Section Client.

Variable sha256 : bytes -> bytes.

(** [get_ghost_identifier] *)
Definition get_ghost_identifier : M string :=
  pk <- gets public_key ;;
  ret (hex pk).

(** [generate_commitment], lines 74-102. *)
Definition generate_commitment
    (amount : Z) (recipient : string) (nonce : option bytes)
  : M Commitment :=
  nonce <- match nonce with
           | None => random 32
           | Some n => ret n
           end ;;
  amount_bytes <- lift (to_bytes 8 amount) ;;
  let data := encode recipient ++ amount_bytes ++ nonce in
  let commitment := sha256 data in
  ret {| value := commitment; nonce := nonce; amount := amount |}.

(** [generate_nullifier], lines 104-121. *)
Definition generate_nullifier (commitment : Commitment) : M Nullifier :=
  sk <- gets private_key ;;
  let data := value commitment ++ sk in
  let nullifier := sha256 data in
  ret {| nullifier_value := nullifier;
         nullifier_commitment := value commitment |}.

(** Lines 141-143 of [deposit]: [self.commitments[commitment_key] = commitment]. *)
Definition store_commitment (commitment : Commitment) : M unit :=
  let commitment_key := hex (value commitment) in
  modify (fun g =>
    set_commitments (dict_setitem commitment_key commitment (commitments g)) g).

(** [deposit], lines 123-148. *)
Definition deposit (amount : Z) : M string :=
  recipient <- get_ghost_identifier ;;
  commitment <- generate_commitment amount recipient None ;;
  store_commitment commitment ;;;
  ret "deposit_tx_signature"%string.

(** The generator of lines 164-167: the first value of the dictionary, in
    iteration order, with [c['amount'] >= amount]. *)
Definition first_fit (amount0 : Z) (cs : dict Commitment)
  : option Commitment :=
  find (fun c => amount c >=? amount0) (dict_values cs).

(** [del self.commitments[key]] *)
Definition delete_commitment (key : string) : M unit :=
  cs <- gets commitments ;;
  match dict_delitem key cs with
  | Some cs' => modify (set_commitments cs')
  | None => raise (KeyError key)
  end.

(** [withdraw], lines 150-187. A commitment is a dictionary with three
    keys, hence true in [if not commitment]; only [None] takes the
    branch that raises. *)
Definition withdraw (amount : Z) (recipient : string) : M string :=
  cs <- gets commitments ;;
  match first_fit amount cs with
  | None => raise (ValueError "Insufficient balance")
  | Some commitment =>
      nullifier <- generate_nullifier commitment ;;
      let nullifier_key := hex (nullifier_value nullifier) in
      spent <- gets nullifiers ;;
      if bool_decide (nullifier_key ∈ spent) then
        raise (ValueError "Commitment already spent")
      else
        modify (fun g => set_nullifiers ({[ nullifier_key ]} ∪ nullifiers g) g) ;;;
        delete_commitment (hex (value commitment)) ;;;
        ret "withdraw_tx_signature"%string
  end.

(** [private_transfer], lines 189-212. *)
Definition private_transfer
    (recipient : string) (amount : Z) (memo : option string) : M string :=
  withdraw amount recipient.

(** [get_private_balance], lines 214-216. *)
Definition get_private_balance : M Z :=
  cs <- gets commitments ;;
  ret (fold_right Z.add 0 (map amount (dict_values cs))).

(** [generate_balance_proof], lines 218-241. *)
Definition generate_balance_proof (min_balance : Z) : M BalanceProof :=
  actual_balance <- get_private_balance ;;
  if actual_balance <? min_balance then
    raise (ValueError "Insufficient balance")
  else
    ret {| proof := encode "proof_data";
           public_signals := [min_balance] |}.

(** ** Runs of the client *)

(** The client as [__init__] leaves it: no commitment, no nullifier. *)
Definition initial (sk pk : bytes) (e : nat -> byte) : World :=
  {| self := {| private_key := sk; public_key := pk;
                commitments := []; nullifiers := ∅ |};
     entropy := e; drawn := 0 |}.

Inductive op : Type :=
| Deposit (amount : Z)
| Withdraw (amount : Z) (recipient : string)
| PrivateTransfer (recipient : string) (amount : Z) (memo : option string).

Definition run (o : op) : M string :=
  match o with
  | Deposit a => deposit a
  | Withdraw a r => withdraw a r
  | PrivateTransfer r a memo => private_transfer r a memo
  end.

(** The state a call leaves behind, whether it returns or raises. *)
Definition step (o : op) (w : World) : World := snd (run o w).

Definition run_ops (ops : list op) (w : World) : World :=
  fold_left (fun w o => step o w) ops w.

Inductive reachable : World -> Prop :=
| reach_initial sk pk e : reachable (initial sk pk e)
| reach_step o w : reachable w -> reachable (step o w).

(** The key under which the nullifier of a commitment is recorded. *)
Definition nullifier_key (g : GhostClient) (c : Commitment) : string :=
  hex (sha256 (value c ++ private_key g)).

(** The total of the open commitments, as [get_private_balance] sums it. *)
Definition balance (w : World) : Z :=
  fold_right Z.add 0 (map amount (dict_values (commitments (self w)))).

(** The commitment a call consumes: the one [withdraw] picked, when the
    call returns. *)
Definition consumed (o : op) (w : World) : option Commitment :=
  match o with
  | Deposit _ => None
  | Withdraw a r | PrivateTransfer r a _ =>
      match fst (withdraw a r w) with
      | Ok _ => first_fit a (commitments (self w))
      | Raise _ => None
      end
  end.

(** The values of the commitments consumed along a run, oldest first. *)
Fixpoint spend_log (ops : list op) (w : World) : list bytes :=
  match ops with
  | [] => []
  | o :: ops' =>
      match consumed o w with
      | Some c => value c :: spend_log ops' (step o w)
      | None => spend_log ops' (step o w)
      end
  end.

(** No open commitment has its nullifier in the spent set. *)
Definition unspent_open (w : World) : Prop :=
  ∀ c, c ∈ dict_values (commitments (self w)) →
       nullifier_key (self w) c ∉ nullifiers (self w).

(** Open commitments have pairwise distinct nullifiers. *)
Definition distinct_nullifiers (g : GhostClient) : Prop :=
  ∀ k1 c1 k2 c2,
    (k1, c1) ∈ commitments g → (k2, c2) ∈ commitments g →
    nullifier_key g c1 = nullifier_key g c2 → k1 = k2.

(** The commitment that [deposit amount] would create in [w]. *)
Definition deposit_commitment (amount : Z) (w : World) : option Commitment :=
  match fst (bind get_ghost_identifier
               (fun r => generate_commitment amount r None) w) with
  | Ok c => Some c
  | Raise _ => None
  end.

(** A deposit brings a new nullifier: the commitment it creates has a
    nullifier that is not spent and that no other open commitment has. *)
Definition fresh_deposit (amount : Z) (w : World) : bool :=
  match deposit_commitment amount w with
  | None => true
  | Some c =>
      negb (bool_decide (nullifier_key (self w) c ∈ nullifiers (self w)))
      && forallb
           (fun kc =>
              String.eqb (fst kc) (hex (value c))
              || negb (String.eqb (nullifier_key (self w) (snd kc))
                                  (nullifier_key (self w) c)))
           (commitments (self w))
  end.

Definition fresh_op (o : op) (w : World) : bool :=
  match o with
  | Deposit a => fresh_deposit a w
  | _ => true
  end.

(** States reached from a new client by runs in which every deposit brings
    a new nullifier. *)
Inductive reachable_fresh : World -> Prop :=
| fresh_initial sk pk e : reachable_fresh (initial sk pk e)
| fresh_step o w :
    reachable_fresh w -> fresh_op o w = true -> reachable_fresh (step o w).

(** What every reachable ledger satisfies: keys are distinct, each
    commitment sits under the hexadecimal text of its value, and amounts
    fit in eight bytes. *)
Record ledger_ok (g : GhostClient) : Prop := {
  ok_nodup : NoDup (dict_keys (commitments g));
  ok_keys : ∀ k c, (k, c) ∈ commitments g → k = hex (value c);
  ok_amounts : ∀ k c, (k, c) ∈ commitments g → 0 <= amount c < 2 ^ 64
}.

End Client.

(** ** Sample data for the examples *)

Definition sample_private_key : bytes := repeat x01 32.
Definition sample_public_key : bytes := repeat x02 32.
Definition sample_nonce : bytes := repeat x07 32.

(** A source of randomness that never repeats within the first 256 bytes. *)
Definition counting_entropy (i : nat) : byte := byte_of_Z (Z.of_nat i).

(** A source of randomness that hands out the same bytes at every call. *)
Definition stuck_entropy (i : nat) : byte := x2a.

Definition new_client : World :=
  initial sample_private_key sample_public_key counting_entropy.

Definition stuck_client : World :=
  initial sample_private_key sample_public_key stuck_entropy.

(** Two deposits on a new client, as in the scenario of the specification. *)
Definition two_deposits : World :=
  run_ops SHA256.digest [Deposit 1000000000; Deposit 500000000] new_client.

(** Two small deposits: no single one covers 5, together they do. *)
Definition small_deposits : World :=
  run_ops SHA256.digest [Deposit 3; Deposit 3] new_client.

(** A run with three deposits and a withdrawal, all nonces distinct. *)
Definition busy_ops : list op :=
  [Deposit 1000000000; Deposit 500000000; Withdraw 500000000 "bob";
   Deposit 7].

Definition busy_client : World := run_ops SHA256.digest busy_ops new_client.

(** A deposit, its withdrawal, and a second deposit for which the source of
    randomness hands out the same nonce again. *)
Definition respent_client : World :=
  run_ops SHA256.digest [Deposit 5; Withdraw 5 "bob"; Deposit 5] stuck_client.

(** ** More on runs of the client *)

Section ClientRuns.

Variable sha256 : bytes -> bytes.

(** A commitment as [deposit] builds it for the client with public key [pk]:
    the value is the hash of the identifier, the amount on eight bytes and
    the nonce, and the nonce has 32 bytes. *)
Definition deposited_by (pk : bytes) (c : Commitment) : Prop :=
  value c = sha256 (encode (hex pk) ++ le_bytes 8 (amount c) ++ nonce c)
  ∧ length (nonce c) = 32%nat.


End ClientRuns.

(** ** [ghost_sdk/monero.py]: [MoneroPrivacyClient]

    The methods draw randomness and raise, and never change the client after
    [__init__]; they run in a monad over the source of randomness alone.
    [self.subaddresses] is set to the empty dictionary by [__init__] and
    never read or written again; it is left out. *)

Module Monero.

(** The exceptions of [client.py], and [IndexError] for list indexing. *)
Inductive error : Type :=
| Builtin (e : exn)
| IndexError (msg : string).

Inductive outcome (A : Type) : Type :=
| Return (a : A)
| Throw (e : error).
Arguments Return {A} a.
Arguments Throw {A} e.

(** The bytes [nacl.utils.random] hands out, and how many were taken. *)
Record Rng : Type := mkRng {
  stream : nat -> byte;
  taken : nat
}.

Definition R (A : Type) : Type := Rng -> outcome A * Rng.

Definition ret {A} (a : A) : R A := fun g => (Return a, g).

Definition bind {A B} (m : R A) (k : A -> R B) : R B :=
  fun g =>
    match m g with
    | (Return a, g') => k a g'
    | (Throw e, g') => (Throw e, g')
    end.

Definition throw {A} (e : error) : R A := fun g => (Throw e, g).

Definition lift {A} (o : outcome A) : R A := fun g => (o, g).

(** [nacl.utils.random(size)] *)
Definition random (size : nat) : R bytes :=
  fun g =>
    (Return (map (stream g) (seq (taken g) size)),
     {| stream := stream g; taken := (taken g + size)%nat |}).

Declare Scope monero_scope.
Delimit Scope monero_scope with monero.
Notation "x <- m ;; k" := (bind m (fun x => k))
  (at level 100, m at next level, right associativity) : monero_scope.
Local Open Scope monero_scope.

(** [self.key_pair] *)
Record KeyPair : Type := mkKeyPair {
  private_spend_key : bytes;
  public_spend_key : bytes;
  private_view_key : bytes;
  public_view_key : bytes
}.

Record MoneroPrivacyClient : Type := mkClient {
  key_pair : KeyPair
}.

(** The dictionary of [get_primary_address]. *)
Record Address : Type := mkAddress {
  address : string;
  spend_key : bytes;
  view_key : bytes
}.

(** The dictionary of [generate_stealth_address]; its key ['address'] is
    [stealth]. *)
Record StealthAddress : Type := mkStealthAddress {
  stealth : string;
  tx_public_key : bytes;
  output_index : Z
}.

(** The dictionary of [create_ring_signature]; its keys ['c'] and ['r'] are
    [ring_c] and [ring_r]. *)
Record RingSignature : Type := mkRingSignature {
  key_image : bytes;
  ring_c : list bytes;
  ring_r : list bytes;
  ring_members : list bytes
}.

(** The dictionary of [create_ringct_output]. *)
Record RingCTOutput : Type := mkRingCTOutput {
  commitment : bytes;
  mask : bytes;
  range_bitmap : list bytes
}.

(** [nacl.signing.SigningKey(seed)] followed by [bytes(...)]: the key is its
    seed, which must have 32 bytes. *)
Definition SigningKey (seed : bytes) : outcome bytes :=
  if Nat.eqb (length seed) 32 then Return seed
  else Throw (Builtin (ValueError "The seed must be exactly 32 bytes long")).

(** [l[i]] on a list: a negative index counts from the end. *)
Definition getitem {A} (l : list A) (i : Z) : outcome A :=
  let n := Z.of_nat (length l) in
  let j := if i <? 0 then i + n else i in
  if (0 <=? j) && (j <? n) then
    match nth_error l (Z.to_nat j) with
    | Some x => Return x
    | None => Throw (IndexError "list index out of range")
    end
  else Throw (IndexError "list index out of range").

(** [bytes(ints)]: every integer must be in [range(256)]. *)
Fixpoint bytes_of_ints (ints : list Z) : outcome bytes :=
  match ints with
  | [] => Return []
  | x :: rest =>
      if (0 <=? x) && (x <? 256) then
        match bytes_of_ints rest with
        | Return b => Return (byte_of_Z x :: b)
        | Throw e => Throw e
        end
      else Throw (Builtin (ValueError "bytes must be in range(0, 256)"))
  end.

(** [amount.to_bytes(8, 'little')] *)
Definition to_bytes8 (amount : Z) : outcome bytes :=
  match to_bytes 8 amount with
  | Ok b => Return b
  | Raise e => Throw (Builtin e)
  end.

(** [[nacl.utils.random(32) for _ in range(n)]] *)
Fixpoint random_list (n : nat) : R (list bytes) :=
  match n with
  | O => ret []
  | S k =>
      x <- random 32 ;;
      xs <- random_list k ;;
      ret (x :: xs)
  end.

Section Keys.

(** [hashlib.sha256(data).digest()], and the Ed25519 public key of a signing
    key ([.verify_key], computed by PyNaCl). *)
Variable sha256 : bytes -> bytes.
Variable verify_key : bytes -> bytes.

(** [_generate_key_pair], lines 56-73. [SigningKey.generate()] is
    [SigningKey(nacl.utils.random(32))]. *)
Definition _generate_key_pair : R KeyPair :=
  seed <- random 32 ;;
  private_spend_key <- lift (SigningKey seed) ;;
  let public_spend_key := verify_key private_spend_key in
  let view_data := encode "view_key" ++ private_spend_key in
  let private_view_key_bytes := sha256 view_data in
  private_view_key <- lift (SigningKey private_view_key_bytes) ;;
  let public_view_key := verify_key private_view_key in
  ret {| private_spend_key := private_spend_key;
         public_spend_key := public_spend_key;
         private_view_key := private_view_key;
         public_view_key := public_view_key |}.

(** [_restore_from_seed], lines 75-90. *)
Definition _restore_from_seed (seed : bytes) : R KeyPair :=
  let spend_data := encode "spend" ++ seed in
  let private_spend_key_bytes := sha256 spend_data in
  private_spend_key <- lift (SigningKey private_spend_key_bytes) ;;
  let view_data := encode "view_key" ++ private_spend_key in
  let private_view_key_bytes := sha256 view_data in
  private_view_key <- lift (SigningKey private_view_key_bytes) ;;
  ret {| private_spend_key := private_spend_key;
         public_spend_key := verify_key private_spend_key;
         private_view_key := private_view_key;
         public_view_key := verify_key private_view_key |}.

(** [__init__], lines 37-49: [if seed] is false for [None] and for the empty
    bytes. *)
Definition __init__ (seed : option bytes) : R MoneroPrivacyClient :=
  match seed with
  | Some ((_ :: _) as seed) =>
      kp <- _restore_from_seed seed ;;
      ret {| key_pair := kp |}
  | _ =>
      kp <- _generate_key_pair ;;
      ret {| key_pair := kp |}
  end.

(** [export_seed], lines 92-94. *)
Definition export_seed (self : MoneroPrivacyClient) : bytes :=
  sha256 (private_spend_key (key_pair self)).

(** [get_primary_address], lines 96-116. *)
Definition get_primary_address (self : MoneroPrivacyClient) : Address :=
  let address_data :=
    [x12] ++ public_spend_key (key_pair self)
          ++ public_view_key (key_pair self) in
  let checksum := firstn 4 (sha256 address_data) in
  let address_with_checksum := address_data ++ checksum in
  {| address := hex address_with_checksum;
     spend_key := public_spend_key (key_pair self);
     view_key := public_view_key (key_pair self) |}.

(** [generate_stealth_address], lines 118-143. *)
Definition generate_stealth_address
    (recipient_address : Address) (output_index : Z) : R StealthAddress :=
  r <- random 32 ;;
  ret {| stealth := hex (sha256 (r ++ spend_key recipient_address));
         tx_public_key := r;
         output_index := output_index |}.

(** [create_ring_signature], lines 145-181. *)
Definition create_ring_signature
    (message : bytes) (real_key_index : Z) (private_key : bytes)
    (ring_public_keys : list bytes) : R RingSignature :=
  let ring_size := length ring_public_keys in
  if real_key_index >=? Z.of_nat ring_size then
    throw (Builtin (ValueError "Invalid key index"))
  else
    member <- lift (getitem ring_public_keys real_key_index) ;;
    let key_image := sha256 (private_key ++ member) in
    c <- random_list ring_size ;;
    r <- random_list ring_size ;;
    ret {| key_image := key_image; ring_c := c; ring_r := r;
           ring_members := ring_public_keys |}.

(** The integer under [bytes([...])] at line 209: [(amount >> i) & 1]. *)
Definition range_bit (amount : Z) (i : nat) : Z :=
  Z.land (Z.shiftr amount (Z.of_nat i)) 1.

(** The comprehension of lines 208-211, over the indices [is]. *)
Fixpoint range_bitmap_over (amount : Z) (indices : list nat)
  : R (list bytes) :=
  match indices with
  | [] => ret []
  | i :: rest =>
      bit <- lift (bytes_of_ints [range_bit amount i]) ;;
      rnd <- random 32 ;;
      let h := sha256 (bit ++ rnd) in
      hs <- range_bitmap_over amount rest ;;
      ret (h :: hs)
  end.

(** [create_ringct_output], lines 183-217. *)
Definition create_ringct_output
    (amount : Z) (recipient_address : Address) : R RingCTOutput :=
  mask <- random 32 ;;
  amount_bytes <- lift (to_bytes8 amount) ;;
  let commitment := sha256 (amount_bytes ++ mask) in
  range_bitmap <- range_bitmap_over amount (seq 0 64) ;;
  ret {| commitment := commitment; mask := mask;
         range_bitmap := range_bitmap |}.

(** A key pair as [__init__] builds it: the view key is derived from the
    spend key, the public keys from the private ones, and the private keys
    have 32 bytes. *)
Record derived (kp : KeyPair) : Prop := {
  derived_view :
    private_view_key kp = sha256 (encode "view_key" ++ private_spend_key kp);
  derived_public_spend : public_spend_key kp = verify_key (private_spend_key kp);
  derived_public_view : public_view_key kp = verify_key (private_view_key kp);
  derived_spend_length : length (private_spend_key kp) = 32%nat;
  derived_view_length : length (private_view_key kp) = 32%nat
}.

End Keys.

(** The [n] bytes of the stream [s] from position [from]. *)
Definition window (s : nat -> byte) (from n : nat) : bytes :=
  map s (seq from n).

(** The value of a list of bits, least significant first. *)
Fixpoint bits_value (bits : list Z) : Z :=
  match bits with
  | [] => 0
  | b :: rest => b + 2 * bits_value rest
  end.

End Monero.
(** ** Sample data for [MoneroPrivacyClient] *)

(** A stand-in for the Ed25519 public key of a signing key, for the examples
    only: the theorems hold for every such function. *)
Definition sample_verify_key (sk : bytes) : bytes :=
  SHA256.digest (encode "ed25519" ++ sk).

Definition sample_rng : Monero.Rng :=
  {| Monero.stream := counting_entropy; Monero.taken := 0 |}.

(** The client restored from [sample_nonce]. *)
Definition sample_monero : Monero.MoneroPrivacyClient :=
  {| Monero.key_pair :=
       {| Monero.private_spend_key :=
            SHA256.digest (encode "spend" ++ sample_nonce);
          Monero.public_spend_key :=
            sample_verify_key (SHA256.digest (encode "spend" ++ sample_nonce));
          Monero.private_view_key :=
            SHA256.digest
              (encode "view_key"
                 ++ SHA256.digest (encode "spend" ++ sample_nonce));
          Monero.public_view_key :=
            sample_verify_key
              (SHA256.digest
                 (encode "view_key"
                    ++ SHA256.digest (encode "spend" ++ sample_nonce))) |} |}.

Definition sample_ring : list bytes :=
  [repeat x0a 32; repeat x0b 32; repeat x0c 32].

(** * Properties *)

(** ** SHA-256 on the test vectors of FIPS 180-4 *)

Example sha256_empty :
  hex (SHA256.digest []) =
  "e3b0c44298fc1c149afbf4c8996fb92427ae41e4649b934ca495991b7852b855"%string.
Proof. vm_compute. reflexivity. Qed.

Example sha256_abc :
  hex (SHA256.digest (encode "abc")) =
  "ba7816bf8f01cfea414140de5dae2223b00361a396177a9cb410ff61f20015ad"%string.
Proof. vm_compute. reflexivity. Qed.

Example sha256_two_blocks :
  hex (SHA256.digest
         (encode "abcdbcdecdefdefgefghfghighijhijkijkljklmklmnlmnomnopnopq")) =
  "248d6a61d20638b8e5c026930c3e6039a33ce45964ff2167f6ecedd419db06c1"%string.
Proof. vm_compute. reflexivity. Qed.

(** ** Bytes and hexadecimal text *)

Lemma Z_of_byte_range (b : byte) : 0 <= Z_of_byte b < 256.
Proof. unfold Z_of_byte. pose proof (Byte.to_N_bounded b). lia. Qed.

Lemma Z_of_byte_of_Z (z : Z) : Z_of_byte (byte_of_Z z) = z mod 256.
Proof.
  unfold Z_of_byte, byte_of_Z.
  pose proof (Z.mod_pos_bound z 256 ltac:(lia)) as Hz.
  destruct (Byte.of_N (Z.to_N (z mod 256))) as [b|] eqn:E.
  - apply Byte.to_of_N in E. rewrite E. apply Z2N.id. lia.
  - apply Byte.of_N_None_iff in E. lia.
Qed.

Lemma byte_of_Z_of_byte (b : byte) : byte_of_Z (Z_of_byte b) = b.
Proof.
  unfold byte_of_Z. rewrite Z.mod_small by apply Z_of_byte_range.
  unfold Z_of_byte. rewrite N2Z.id, Byte.of_to_N. reflexivity.
Qed.

Lemma Z_of_byte_inj (a b : byte) : Z_of_byte a = Z_of_byte b → a = b.
Proof.
  intros E. rewrite <- (byte_of_Z_of_byte a), <- (byte_of_Z_of_byte b).
  now rewrite E.
Qed.

Lemma length_le_bytes (len : nat) (n : Z) : length (le_bytes len n) = len.
Proof. revert n. induction len as [|len IH]; intros n; simpl; auto. Qed.

Lemma from_bytes_little_le_bytes (len : nat) (n : Z) :
  from_bytes_little (le_bytes len n) = n mod 256 ^ Z.of_nat len.
Proof.
  revert n. induction len as [|len IH]; intros n.
  - simpl. now rewrite Z.mod_1_r.
  - cbn [le_bytes from_bytes_little]. rewrite Z_of_byte_of_Z, IH.
    rewrite Nat2Z.inj_succ, Z.pow_succ_r by lia.
    rewrite Z.rem_mul_r by lia. reflexivity.
Qed.

Lemma to_bytes_ok (n : Z) :
  0 <= n < 2 ^ 64 → to_bytes 8 n = Ok (le_bytes 8 n).
Proof.
  intros [Hlo Hhi]. unfold to_bytes.
  destruct (n <? 0) eqn:E1; [apply Z.ltb_lt in E1; lia|].
  change (2 ^ (8 * Z.of_nat 8)) with (2 ^ 64).
  destruct (2 ^ 64 <=? n) eqn:E2; [apply Z.leb_le in E2; lia|]. reflexivity.
Qed.

Lemma to_bytes_range (n : Z) :
  ¬ (0 <= n < 2 ^ 64) → ∃ msg, to_bytes 8 n = Raise (OverflowError msg).
Proof.
  intros Hn. unfold to_bytes.
  destruct (n <? 0) eqn:E1; [eauto|].
  change (2 ^ (8 * Z.of_nat 8)) with (2 ^ 64).
  destruct (2 ^ 64 <=? n) eqn:E2; [eauto|].
  apply Z.ltb_ge in E1. apply Z.leb_gt in E2. lia.
Qed.

Lemma hex_digit_inj (a b : Z) :
  0 <= a < 16 → 0 <= b < 16 → hex_digit a = hex_digit b → a = b.
Proof.
  intros Ha Hb.
  assert (Hall : forallb (fun i => forallb (fun j =>
            implb (Ascii.eqb (hex_digit (Z.of_nat i)) (hex_digit (Z.of_nat j)))
                  (Nat.eqb i j)) (seq 0 16)) (seq 0 16) = true)
    by (vm_compute; reflexivity).
  assert (Hia : In (Z.to_nat a) (seq 0 16)) by (apply in_seq; lia).
  assert (Hib : In (Z.to_nat b) (seq 0 16)) by (apply in_seq; lia).
  pose proof (proj1 (forallb_forall _ _) Hall _ Hia) as Hrow.
  pose proof (proj1 (forallb_forall _ _) Hrow _ Hib) as Hcell.
  simpl in Hcell. rewrite !Z2Nat.id in Hcell by lia.
  intros E. rewrite E, Ascii.eqb_refl in Hcell. simpl in Hcell.
  apply Nat.eqb_eq in Hcell. lia.
Qed.

Lemma hex_inj (a b : bytes) : hex a = hex b → a = b.
Proof.
  revert b. induction a as [|x a IH]; intros [|y b] E; simpl in E;
    try discriminate; [reflexivity|].
  injection E as E1 E2 E3.
  pose proof (Z_of_byte_range x) as Hx. pose proof (Z_of_byte_range y) as Hy.
  assert (Hdiv : ∀ z, 0 <= z < 256 → 0 <= z / 16 < 16).
  { intros z Hz. split; [apply Z.div_pos; lia|].
    apply Z.div_lt_upper_bound; lia. }
  apply hex_digit_inj in E1; auto.
  apply hex_digit_inj in E2;
    [|apply Z.mod_pos_bound; lia|apply Z.mod_pos_bound; lia].
  f_equal; [|now apply IH].
  apply Z_of_byte_inj.
  rewrite (Z.div_mod (Z_of_byte x) 16), (Z.div_mod (Z_of_byte y) 16) by lia.
  now rewrite E1, E2.
Qed.

(** ** Dictionaries *)

Section DictFacts.
Context {V : Type}.
Implicit Types (d : dict V) (k : string) (v : V).

Lemma dict_contains_keys k d : dict_contains k d = true ↔ k ∈ dict_keys d.
Proof.
  induction d as [|[k' v'] d IH]; simpl.
  - split; [discriminate | intros H; inversion H].
  - rewrite elem_of_cons. destruct (String.eqb_spec k k'); simpl.
    + split; auto.
    + rewrite IH. split; [auto | intros [?|?]; [done|auto]].
Qed.

Lemma dict_setitem_new k v d :
  k ∉ dict_keys d → dict_setitem k v d = d ++ [(k, v)].
Proof.
  induction d as [|[k' v'] d IH]; simpl; intros Hk; [reflexivity|].
  apply not_elem_of_cons in Hk as [Hne Hk].
  destruct (String.eqb_spec k k'); [done|]. now rewrite IH.
Qed.

Lemma dict_setitem_keys k v d :
  k ∈ dict_keys d → dict_keys (dict_setitem k v d) = dict_keys d.
Proof.
  induction d as [|[k' v'] d IH]; simpl; intros Hk; [inversion Hk|].
  destruct (String.eqb_spec k k'); simpl; [reflexivity|].
  apply elem_of_cons in Hk as [?|Hk]; [done|]. now rewrite IH.
Qed.

Lemma dict_setitem_get k v d : dict_get k (dict_setitem k v d) = Some v.
Proof.
  induction d as [|[k' v'] d IH]; simpl.
  - now rewrite String.eqb_refl.
  - destruct (String.eqb_spec k k') as [->|Hne]; simpl.
    + now rewrite String.eqb_refl.
    + destruct (String.eqb_spec k k'); [done|]. exact IH.
Qed.

Lemma dict_setitem_elem k v d (x : string * V) :
  x ∈ dict_setitem k v d → x = (k, v) ∨ x ∈ d.
Proof.
  induction d as [|[k' v'] d IH]; simpl.
  - rewrite list_elem_of_singleton. auto.
  - destruct (String.eqb_spec k k') as [->|Hne]; rewrite !elem_of_cons.
    + intros [->|Hx]; auto.
    + intros [->|Hx]; [auto|]. destruct (IH Hx); auto.
Qed.

Lemma dict_key_elem k v d : (k, v) ∈ d → k ∈ dict_keys d.
Proof.
  intros H. apply list_elem_of_In. apply list_elem_of_In in H.
  exact (in_map fst _ _ H).
Qed.

Lemma dict_value_elem k v d : (k, v) ∈ d → v ∈ dict_values d.
Proof.
  intros H. apply list_elem_of_In. apply list_elem_of_In in H.
  exact (in_map snd _ _ H).
Qed.

Lemma dict_values_elem v d : v ∈ dict_values d → ∃ k, (k, v) ∈ d.
Proof.
  intros H. apply list_elem_of_In, in_map_iff in H as [[k v'] [E H]].
  simpl in E. subst v'. exists k. now apply list_elem_of_In.
Qed.

Lemma dict_setitem_has k v d : (k, v) ∈ dict_setitem k v d.
Proof.
  induction d as [|[k' v'] d IH]; simpl.
  - apply list_elem_of_here.
  - destruct (String.eqb_spec k k') as [->|Hne].
    + apply list_elem_of_here.
    + now apply list_elem_of_further.
Qed.

Lemma dict_setitem_other k v d (x : string * V) :
  x ∈ d → fst x ≠ k → x ∈ dict_setitem k v d.
Proof.
  induction d as [|[k' v'] d IH]; simpl; intros Hx Hk; [inversion Hx|].
  apply elem_of_cons in Hx as [->|Hx].
  - simpl in Hk. destruct (String.eqb_spec k k'); [congruence|].
    apply list_elem_of_here.
  - destruct (String.eqb_spec k k'); apply list_elem_of_further; auto.
Qed.

Lemma dict_setitem_elem_nodup k v d (x : string * V) :
  NoDup (dict_keys d) → x ∈ dict_setitem k v d →
  x = (k, v) ∨ (x ∈ d ∧ fst x ≠ k).
Proof.
  induction d as [|[k' v'] d IH]; simpl; intros Hnd.
  - rewrite list_elem_of_singleton. auto.
  - apply NoDup_cons in Hnd as [Hk' Hnd].
    destruct (String.eqb_spec k k') as [->|Hne]; rewrite !elem_of_cons.
    + intros [->|Hx]; [auto|]. right. split; [auto|].
      intros E. apply Hk'. destruct x as [kx vx]. simpl in E. subst kx.
      eapply dict_key_elem; eauto.
    + intros [->|Hx]; [right; split; [auto|simpl; congruence]|].
      destruct (IH Hnd Hx) as [?|[? ?]]; auto.
Qed.

Lemma dict_keys_app d1 d2 :
  dict_keys (d1 ++ d2) = dict_keys d1 ++ dict_keys d2.
Proof. apply map_app. Qed.

Lemma dict_setitem_keys_cases k v d :
  (k ∈ dict_keys d ∧ dict_keys (dict_setitem k v d) = dict_keys d)
  ∨ ((k ∉ dict_keys d) ∧ dict_setitem k v d = d ++ [(k, v)]).
Proof.
  destruct (dict_contains k d) eqn:E.
  - left. apply dict_contains_keys in E.
    split; [auto | now apply dict_setitem_keys].
  - right. assert (k ∉ dict_keys d) as Hk.
    { intros Hk. apply dict_contains_keys in Hk. congruence. }
    split; [auto | now apply dict_setitem_new].
Qed.

Lemma dict_setitem_NoDup k v d :
  NoDup (dict_keys d) → NoDup (dict_keys (dict_setitem k v d)).
Proof.
  intros Hnd.
  destruct (dict_setitem_keys_cases k v d) as [[_ E]|[Hk E]]; rewrite E.
  - exact Hnd.
  - rewrite dict_keys_app. apply NoDup_app. split; [auto|].
    split; [|apply NoDup_singleton].
    intros x Hx Hx'. apply list_elem_of_singleton in Hx'. simpl in Hx'.
    now subst x.
Qed.

Lemma dict_delitem_Some k d d' :
  dict_delitem k d = Some d' →
  ∃ pre v post,
    d = pre ++ (k, v) :: post ∧ d' = pre ++ post ∧ k ∉ dict_keys pre.
Proof.
  revert d'. induction d as [|[k' v'] d IH]; simpl; intros d' H;
    [discriminate|].
  destruct (String.eqb_spec k k') as [->|Hne].
  - injection H as <-. exists [], v', d. repeat split. intros Hin. inversion Hin.
  - destruct (dict_delitem k d) as [d1|]; [|discriminate].
    injection H as <-. destruct (IH d1 eq_refl) as (pre & v & post & -> & -> & Hk).
    exists ((k', v') :: pre), v, post. repeat split.
    simpl. apply not_elem_of_cons. auto.
Qed.

Lemma dict_delitem_None k d : dict_delitem k d = None ↔ k ∉ dict_keys d.
Proof.
  induction d as [|[k' v'] d IH]; simpl.
  - split; [intros _ H; inversion H | auto].
  - rewrite not_elem_of_cons. destruct (String.eqb_spec k k') as [->|Hne].
    + split; [discriminate | intros [? _]; done].
    + destruct (dict_delitem k d); simpl.
      * split; [discriminate|]. intros [_ H]. now apply IH in H.
      * split; [intros _; split; [auto | now apply IH] | auto].
Qed.

(** With distinct keys, deleting [k] removes exactly the entry under [k]. *)
Lemma dict_delitem_elem k d d' (x : string * V) :
  NoDup (dict_keys d) → dict_delitem k d = Some d' →
  (x ∈ d' ↔ x ∈ d ∧ fst x ≠ k).
Proof.
  intros Hnd H.
  apply dict_delitem_Some in H as (pre & v & post & -> & -> & Hk).
  rewrite dict_keys_app in Hnd. simpl in Hnd.
  apply NoDup_app in Hnd as (_ & Hdisj & Hnd).
  apply NoDup_cons in Hnd as [Hpost _].
  rewrite !elem_of_app, elem_of_cons.
  destruct x as [kx vx]. simpl. split.
  - intros [Hx|Hx]; (split; [auto|]); intros ->.
    + apply Hk. eapply dict_key_elem; eauto.
    + apply Hpost. eapply dict_key_elem; eauto.
  - intros [[Hx|[Hx|Hx]] Hne]; auto. congruence.
Qed.

Lemma dict_delitem_NoDup k d d' :
  NoDup (dict_keys d) → dict_delitem k d = Some d' → NoDup (dict_keys d').
Proof.
  intros Hnd H.
  apply dict_delitem_Some in H as (pre & v & post & -> & -> & Hk).
  rewrite dict_keys_app in *. simpl in Hnd.
  apply NoDup_app in Hnd as (Hpre & Hdisj & Hnd).
  apply NoDup_cons in Hnd as [_ Hpost].
  apply NoDup_app. repeat split; auto.
  intros x Hx Hx'. apply (Hdisj x Hx). now apply list_elem_of_further.
Qed.

Lemma dict_delitem_sub k d d' (x : string * V) :
  dict_delitem k d = Some d' → x ∈ d' → x ∈ d.
Proof.
  intros H. apply dict_delitem_Some in H as (pre & v & post & -> & -> & _).
  rewrite !elem_of_app, elem_of_cons. intros [?|?]; auto.
Qed.

End DictFacts.

(** ** The methods, unfolded *)

Section ClientFacts.

Variable sha256 : bytes -> bytes.

Implicit Types (w : World) (g : GhostClient) (c : Commitment).

Lemma get_private_balance_eq w : get_private_balance w = (Ok (balance w), w).
Proof. reflexivity. Qed.

Lemma generate_nullifier_eq c w :
  generate_nullifier sha256 c w =
  (Ok {| nullifier_value := sha256 (value c ++ private_key (self w));
         nullifier_commitment := value c |}, w).
Proof. reflexivity. Qed.

Lemma generate_commitment_eq (a : Z) (recipient : string) (n : bytes) w :
  generate_commitment sha256 a recipient (Some n) w =
  match to_bytes 8 a with
  | Ok b =>
      (Ok {| value := sha256 (encode recipient ++ b ++ n);
             nonce := n; amount := a |}, w)
  | Raise e => (Raise e, w)
  end.
Proof.
  unfold generate_commitment, bind, ret, lift.
  destruct (to_bytes 8 a); reflexivity.
Qed.

Lemma deposit_commitment_eq (a : Z) w :
  deposit_commitment sha256 a w =
  match to_bytes 8 a with
  | Ok b =>
      Some {| value := sha256 (encode (hex (public_key (self w))) ++ b
                                 ++ next_nonce w);
              nonce := next_nonce w; amount := a |}
  | Raise _ => None
  end.
Proof.
  unfold deposit_commitment, get_ghost_identifier, generate_commitment,
    bind, ret, lift, gets, random. simpl.
  destruct (to_bytes 8 a); reflexivity.
Qed.

Lemma deposit_Some (a : Z) w c :
  deposit_commitment sha256 a w = Some c →
  deposit sha256 a w =
  (Ok "deposit_tx_signature"%string,
   {| self := set_commitments
                (dict_setitem (hex (value c)) c (commitments (self w)))
                (self w);
      entropy := entropy w; drawn := (drawn w + 32)%nat |}).
Proof.
  rewrite deposit_commitment_eq.
  unfold deposit, get_ghost_identifier, generate_commitment,
    store_commitment, bind, ret, lift, gets, random, modify. simpl.
  destruct (to_bytes 8 a); [|discriminate]. now intros [= <-].
Qed.

Lemma deposit_None (a : Z) w :
  deposit_commitment sha256 a w = None →
  ∃ msg, deposit sha256 a w =
         (Raise (OverflowError msg),
          {| self := self w; entropy := entropy w;
             drawn := (drawn w + 32)%nat |}).
Proof.
  rewrite deposit_commitment_eq.
  unfold deposit, get_ghost_identifier, generate_commitment,
    store_commitment, bind, ret, lift, gets, random, modify. simpl.
  destruct (to_bytes 8 a) as [b|e] eqn:E; [discriminate|]. intros _.
  unfold to_bytes in E.
  destruct (a <? 0); [injection E as <-; eauto|].
  destruct (_ <=? a); [injection E as <-; eauto | discriminate].
Qed.

Lemma deposit_commitment_amount (a : Z) w c :
  deposit_commitment sha256 a w = Some c →
  amount c = a ∧ 0 <= a < 2 ^ 64.
Proof.
  rewrite deposit_commitment_eq.
  destruct (to_bytes 8 a) as [b|e] eqn:E; [|discriminate].
  intros [= <-]. split; [reflexivity|].
  destruct (Z_le_dec 0 a) as [H0|H0], (Z_lt_dec a (2 ^ 64)) as [H1|H1];
    [auto | | | ];
    (destruct (to_bytes_range a) as [msg Hm]; [lia | congruence]).
Qed.

Lemma withdraw_eq (a : Z) (r : string) w :
  withdraw sha256 a r w =
  match first_fit a (commitments (self w)) with
  | None => (Raise InsufficientBalance, w)
  | Some c =>
      let nk := nullifier_key sha256 (self w) c in
      if bool_decide (nk ∈ nullifiers (self w)) then (Raise AlreadySpent, w)
      else
        let g := set_nullifiers ({[ nk ]} ∪ nullifiers (self w)) (self w) in
        match dict_delitem (hex (value c)) (commitments (self w)) with
        | Some cs' =>
            (Ok "withdraw_tx_signature"%string,
             {| self := set_commitments cs' g;
                entropy := entropy w; drawn := drawn w |})
        | None =>
            (Raise (KeyError (hex (value c))),
             {| self := g; entropy := entropy w; drawn := drawn w |})
        end
  end.
Proof.
  unfold withdraw, generate_nullifier, delete_commitment, nullifier_key,
    bind, ret, raise, gets, modify. simpl.
  destruct (first_fit a (commitments (self w))) as [c|]; [|reflexivity].
  simpl. destruct (bool_decide _); [reflexivity|]. simpl.
  destruct (dict_delitem _ _); reflexivity.
Qed.

(** ** The first fit *)

Lemma find_first {A} (f : A → bool) (l : list A) (x : A) :
  find f l = Some x ↔
  ∃ pre post, l = pre ++ x :: post ∧ (∀ y, y ∈ pre → f y = false)
              ∧ f x = true.
Proof.
  induction l as [|y l IH]; simpl.
  - split; [discriminate|]. intros (pre & post & E & _).
    destruct pre; discriminate.
  - destruct (f y) eqn:Ey.
    + split.
      * intros [= ->]. exists [], l. split; [reflexivity|].
        split; [|assumption]. intros z Hz. inversion Hz.
      * intros (pre & post & E & Hpre & Hx). destruct pre as [|z pre].
        -- simpl in E. congruence.
        -- simpl in E. injection E as -> ->.
           rewrite Hpre in Ey by apply list_elem_of_here. discriminate.
    + rewrite IH. split.
      * intros (pre & post & -> & Hpre & Hx). exists (y :: pre), post.
        split; [reflexivity|]. split; [|assumption].
        intros z Hz. apply elem_of_cons in Hz as [->|Hz]; auto.
      * intros (pre & post & E & Hpre & Hx). destruct pre as [|z pre].
        -- simpl in E. congruence.
        -- simpl in E. injection E as -> ->. exists pre, post.
           split; [reflexivity|]. split; [|assumption].
           intros u Hu. apply Hpre. now apply list_elem_of_further.
Qed.

Lemma first_fit_Some (x : Z) (cs : dict Commitment) c :
  first_fit x cs = Some c ↔
  ∃ pre post, dict_values cs = pre ++ c :: post
              ∧ (∀ c', c' ∈ pre → amount c' < x) ∧ x <= amount c.
Proof.
  unfold first_fit. rewrite find_first. split.
  - intros (pre & post & E & Hpre & Hc). exists pre, post.
    split; [assumption|]. split.
    + intros c' Hc'. specialize (Hpre c' Hc').
      destruct (Z.geb_spec (amount c') x); [discriminate | lia].
    + now apply Z.geb_le.
  - intros (pre & post & E & Hpre & Hc). exists pre, post.
    split; [assumption|]. split.
    + intros c' Hc'. specialize (Hpre c' Hc').
      destruct (Z.geb_spec (amount c') x); [lia | reflexivity].
    + now apply Z.geb_le.
Qed.

Lemma first_fit_None (x : Z) (cs : dict Commitment) :
  first_fit x cs = None ↔ ∀ c, c ∈ dict_values cs → amount c < x.
Proof.
  unfold first_fit. split.
  - intros H c Hc. apply list_elem_of_In in Hc.
    pose proof (find_none _ _ H c Hc) as Hf. simpl in Hf.
    destruct (Z.geb_spec (amount c) x); [discriminate | lia].
  - intros H. destruct (find _ _) as [c|] eqn:E; [|reflexivity].
    apply find_some in E as [Hc Hf]. apply list_elem_of_In in Hc.
    specialize (H c Hc). apply Z.geb_le in Hf. lia.
Qed.

Lemma first_fit_elem (x : Z) (cs : dict Commitment) c :
  first_fit x cs = Some c → c ∈ dict_values cs ∧ x <= amount c.
Proof.
  intros H. apply first_fit_Some in H as (pre & post & E & _ & Hc).
  split; [|assumption]. rewrite E. apply elem_of_app. right.
  apply list_elem_of_here.
Qed.


(** ** What the calls keep *)

Lemma step_private_key o w :
  private_key (self (step sha256 o w)) = private_key (self w).
Proof.
  assert (Hw : ∀ a r, private_key (self (snd (withdraw sha256 a r w)))
                      = private_key (self w)).
  { intros a r. rewrite withdraw_eq.
    destruct (first_fit a _) as [c|]; [|reflexivity]. simpl.
    destruct (bool_decide _); [reflexivity|].
    destruct (dict_delitem _ _); reflexivity. }
  destruct o as [a|a r|r a memo]; unfold step, run, private_transfer;
    [|apply Hw|apply Hw].
  destruct (deposit_commitment sha256 a w) as [c|] eqn:E.
  - now rewrite (deposit_Some _ _ _ E).
  - destruct (deposit_None _ _ E) as [msg ->]. reflexivity.
Qed.

Lemma step_nullifiers o w :
  nullifiers (self w) ⊆ nullifiers (self (step sha256 o w)).
Proof.
  assert (Hw : ∀ a r, nullifiers (self w)
                      ⊆ nullifiers (self (snd (withdraw sha256 a r w)))).
  { intros a r. rewrite withdraw_eq.
    destruct (first_fit a _) as [c|]; [|reflexivity]. simpl.
    destruct (bool_decide _); [reflexivity|].
    destruct (dict_delitem _ _); simpl; set_solver. }
  destruct o as [a|a r|r a memo]; unfold step, run, private_transfer;
    [|apply Hw|apply Hw].
  destruct (deposit_commitment sha256 a w) as [c|] eqn:E.
  - now rewrite (deposit_Some _ _ _ E).
  - destruct (deposit_None _ _ E) as [msg ->]. reflexivity.
Qed.

Lemma step_nullifier_key o w c :
  nullifier_key sha256 (self (step sha256 o w)) c
  = nullifier_key sha256 (self w) c.
Proof. unfold nullifier_key. now rewrite step_private_key. Qed.

Lemma initial_ledger_ok sk pk e : ledger_ok (self (initial sk pk e)).
Proof.
  split; simpl.
  - apply NoDup_nil_2.
  - intros k c H. inversion H.
  - intros k c H. inversion H.
Qed.

Lemma deposit_ledger_ok (a : Z) w :
  ledger_ok (self w) → ledger_ok (self (snd (deposit sha256 a w))).
Proof.
  intros [Hnd Hkeys Hamt].
  destruct (deposit_commitment sha256 a w) as [c|] eqn:E.
  - rewrite (deposit_Some _ _ _ E). simpl.
    destruct (deposit_commitment_amount _ _ _ E) as [Ea Hr].
    split; simpl.
    + now apply dict_setitem_NoDup.
    + intros k c' H. apply dict_setitem_elem in H as [[= -> ->]|H]; eauto.
    + intros k c' H. apply dict_setitem_elem in H as [[= -> ->]|H]; eauto.
      now rewrite Ea.
  - destruct (deposit_None _ _ E) as [msg ->]. simpl. now split.
Qed.

Lemma withdraw_ledger_ok (a : Z) (r : string) w :
  ledger_ok (self w) → ledger_ok (self (snd (withdraw sha256 a r w))).
Proof.
  intros Hok. pose proof Hok as [Hnd Hkeys Hamt]. rewrite withdraw_eq.
  destruct (first_fit a _) as [c|]; [|assumption]. simpl.
  destruct (bool_decide _); [assumption|].
  destruct (dict_delitem _ _) as [cs'|] eqn:E; simpl; [|now split].
  split; simpl.
  - eapply dict_delitem_NoDup; eauto.
  - intros k c' H. eapply Hkeys, dict_delitem_sub; eauto.
  - intros k c' H. eapply Hamt, dict_delitem_sub; eauto.
Qed.

Lemma step_ledger_ok o w :
  ledger_ok (self w) → ledger_ok (self (step sha256 o w)).
Proof.
  destruct o as [a|a r|r a memo]; unfold step, run, private_transfer.
  - apply deposit_ledger_ok.
  - apply withdraw_ledger_ok.
  - apply withdraw_ledger_ok.
Qed.

Lemma reachable_ledger_ok w : reachable sha256 w → ledger_ok (self w).
Proof.
  induction 1 as [sk pk e|o w _ IH].
  - apply initial_ledger_ok.
  - now apply step_ledger_ok.
Qed.

Lemma reachable_fresh_reachable w :
  reachable_fresh sha256 w → reachable sha256 w.
Proof. induction 1; constructor; auto. Qed.

(** In a reachable ledger the selected commitment sits under its own key,
    so that [del] finds it. *)
Lemma ledger_ok_delitem g c :
  ledger_ok g → c ∈ dict_values (commitments g) →
  ∃ pre post,
    commitments g = pre ++ (hex (value c), c) :: post
    ∧ dict_delitem (hex (value c)) (commitments g) = Some (pre ++ post)
    ∧ c ∉ dict_values pre.
Proof.
  intros [Hnd Hkeys _] Hc. apply dict_values_elem in Hc as [k Hk].
  pose proof (Hkeys _ _ Hk) as ->.
  destruct (dict_delitem (hex (value c)) (commitments g)) as [cs'|] eqn:E.
  - pose proof E as E'.
    apply dict_delitem_Some in E' as (pre & v & post & Eg & -> & Hpre).
    exists pre, post.
    assert (v = c) as ->.
    { rewrite Eg in Hk, Hnd. rewrite dict_keys_app in Hnd. simpl in Hnd.
      apply NoDup_app in Hnd as (_ & _ & Hnd).
      apply NoDup_cons in Hnd as [Hpost _].
      apply elem_of_app in Hk as [Hk|Hk].
      + exfalso. apply Hpre. eapply dict_key_elem; eauto.
      + apply elem_of_cons in Hk as [[= ->]|Hk]; [reflexivity|].
        exfalso. apply Hpost. eapply dict_key_elem; eauto. }
    split; [assumption|]. split; [reflexivity|].
    intros Hin. apply dict_values_elem in Hin as [k' Hk'].
    assert (k' = hex (value c)) as ->.
    { apply Hkeys. rewrite Eg. apply elem_of_app. now left. }
    apply Hpre. eapply dict_key_elem; eauto.
  - apply dict_delitem_None in E. exfalso. apply E.
    eapply dict_key_elem; eauto.
Qed.

Lemma find_app_first {A} (f : A → bool) (l1 l2 : list A) (x : A) :
  find f (l1 ++ x :: l2) = Some x → x ∉ l1 → ∀ y, y ∈ l1 → f y = false.
Proof.
  induction l1 as [|z l1 IH]; simpl; intros Hf Hx y Hy; [inversion Hy|].
  apply not_elem_of_cons in Hx as [Hne Hx].
  destruct (f z) eqn:Ez; [congruence|].
  apply elem_of_cons in Hy as [->|Hy]; [assumption|]. now apply IH.
Qed.

(** A call of [withdraw] that returns, on a reachable ledger: the first
    entry that fits is taken out, its nullifier recorded, and nothing else
    changes. *)
Lemma withdraw_Ok (x : Z) (r : string) w (res : string) w' :
  ledger_ok (self w) → withdraw sha256 x r w = (Ok res, w') →
  ∃ pre c post,
    commitments (self w) = pre ++ (hex (value c), c) :: post
    ∧ first_fit x (commitments (self w)) = Some c
    ∧ (∀ kc, kc ∈ pre → amount (snd kc) < x) ∧ x <= amount c
    ∧ (nullifier_key sha256 (self w) c ∉ nullifiers (self w))
    ∧ res = "withdraw_tx_signature"%string
    ∧ dict_delitem (hex (value c)) (commitments (self w))
      = Some (pre ++ post)
    ∧ w' = {| self := set_commitments (pre ++ post)
                        (set_nullifiers
                           ({[ nullifier_key sha256 (self w) c ]}
                              ∪ nullifiers (self w)) (self w));
              entropy := entropy w; drawn := drawn w |}.
Proof.
  intros Hok. rewrite withdraw_eq.
  destruct (first_fit x (commitments (self w))) as [c|] eqn:Ef;
    [|discriminate].
  cbv zeta. case_bool_decide as Hnk; [discriminate|].
  destruct (first_fit_elem _ _ _ Ef) as [Hc Hx].
  destruct (ledger_ok_delitem _ _ Hok Hc) as (pre & post & Eg & Ed & Hpre).
  rewrite Ed. intros [= <- <-]. exists pre, c, post. repeat split; auto.
  intros kc Hkc. unfold first_fit in Ef. rewrite Eg in Ef.
  unfold dict_values in Ef. rewrite map_app in Ef. simpl in Ef.
  pose proof (find_app_first _ _ _ _ Ef Hpre (snd kc)) as Hlt.
  destruct kc as [k c']. cbn [snd] in *.
  assert (c' ∈ dict_values pre) as Hin by (eapply dict_value_elem; eauto).
  specialize (Hlt Hin). cbv beta in Hlt.
  rewrite Z.geb_leb in Hlt. apply Z.leb_gt in Hlt. exact Hlt.
Qed.

(** On a reachable ledger [withdraw] raises nothing but its two
    [ValueError]s. *)
Lemma withdraw_Raise (x : Z) (r : string) w (e : exn) w' :
  ledger_ok (self w) → withdraw sha256 x r w = (Raise e, w') →
  w' = w
  ∧ ((e = InsufficientBalance ∧ first_fit x (commitments (self w)) = None)
     ∨ (e = AlreadySpent
        ∧ ∃ c, first_fit x (commitments (self w)) = Some c
               ∧ nullifier_key sha256 (self w) c ∈ nullifiers (self w))).
Proof.
  intros Hok. rewrite withdraw_eq.
  destruct (first_fit x (commitments (self w))) as [c|] eqn:Ef.
  - cbv zeta. case_bool_decide as Hnk.
    + intros [= <- <-]. split; [reflexivity|]. right. eauto.
    + destruct (first_fit_elem _ _ _ Ef) as [Hc _].
      destruct (ledger_ok_delitem _ _ Hok Hc) as (pre & post & _ & -> & _).
      discriminate.
  - intros [= <- <-]. auto.
Qed.

Lemma balance_split (pre post : dict Commitment) (k : string) c :
  fold_right Z.add 0 (map amount (dict_values (pre ++ (k, c) :: post)))
  = amount c + fold_right Z.add 0 (map amount (dict_values (pre ++ post))).
Proof.
  unfold dict_values. induction pre as [|[k' c'] pre IH]; simpl; [lia|].
  rewrite IH. lia.
Qed.

(** ** Spending once *)

Lemma nullifier_key_value g c c' :
  value c = value c' → nullifier_key sha256 g c = nullifier_key sha256 g c'.
Proof. unfold nullifier_key. now intros ->. Qed.

(** A call that consumes [c] finds its nullifier unspent and leaves it
    spent. This holds in every state, reachable or not. *)
Lemma consumed_spends o w c :
  consumed sha256 o w = Some c →
  (nullifier_key sha256 (self w) c ∉ nullifiers (self w))
  ∧ nullifier_key sha256 (self w) c ∈ nullifiers (self (step sha256 o w)).
Proof.
  assert (Hw : ∀ a r,
    match fst (withdraw sha256 a r w) with
    | Ok _ => first_fit a (commitments (self w))
    | Raise _ => None
    end = Some c →
    (nullifier_key sha256 (self w) c ∉ nullifiers (self w))
    ∧ nullifier_key sha256 (self w) c
      ∈ nullifiers (self (snd (withdraw sha256 a r w)))).
  { intros a r. rewrite withdraw_eq.
    destruct (first_fit a (commitments (self w))) as [c0|];
      [|discriminate].
    cbv zeta. case_bool_decide as Hnk; [discriminate|].
    destruct (dict_delitem _ _); [|discriminate].
    simpl. intros [= ->]. split; [assumption | set_solver]. }
  destruct o as [a|a r|r a memo]; unfold consumed, step, run,
    private_transfer; [discriminate | apply Hw | apply Hw].
Qed.

Lemma spend_log_spent ops w c :
  nullifier_key sha256 (self w) c ∈ nullifiers (self w) →
  value c ∉ spend_log sha256 ops w.
Proof.
  revert w. induction ops as [|o ops IH]; intros w Hc; simpl.
  - intros H. inversion H.
  - assert (Hnext : value c ∉ spend_log sha256 ops (step sha256 o w)).
    { apply IH. rewrite step_nullifier_key.
      now apply (step_nullifiers o w). }
    destruct (consumed sha256 o w) as [c0|] eqn:E; [|assumption].
    apply not_elem_of_cons. split; [|assumption].
    intros Ev. apply consumed_spends in E as [Hn _]. apply Hn.
    now rewrite <- (nullifier_key_value _ c c0 Ev).
Qed.

Lemma spend_log_NoDup ops w : NoDup (spend_log sha256 ops w).
Proof.
  revert w. induction ops as [|o ops IH]; intros w; simpl.
  - apply NoDup_nil_2.
  - destruct (consumed sha256 o w) as [c|] eqn:E; [|apply IH].
    apply NoDup_cons. split; [|apply IH].
    apply spend_log_spent. rewrite step_nullifier_key.
    now apply consumed_spends in E as [_ H].
Qed.

Lemma fresh_deposit_true (a : Z) w c :
  fresh_deposit sha256 a w = true →
  deposit_commitment sha256 a w = Some c →
  (nullifier_key sha256 (self w) c ∉ nullifiers (self w))
  ∧ ∀ k c', (k, c') ∈ commitments (self w) →
            nullifier_key sha256 (self w) c'
            = nullifier_key sha256 (self w) c →
            k = hex (value c).
Proof.
  unfold fresh_deposit. intros H E. rewrite E in H.
  apply andb_true_iff in H as [H1 H2]. split.
  - apply negb_true_iff in H1. now apply bool_decide_eq_false in H1.
  - intros k c' Hin Hnk. rewrite forallb_forall in H2.
    apply list_elem_of_In in Hin. specialize (H2 _ Hin). simpl in H2.
    apply orb_true_iff in H2 as [H2|H2].
    + now apply String.eqb_eq in H2.
    + apply negb_true_iff, String.eqb_neq in H2. contradiction.
Qed.

Lemma fresh_step_invariant o w :
  ledger_ok (self w) → fresh_op sha256 o w = true →
  unspent_open sha256 w ∧ distinct_nullifiers sha256 (self w) →
  unspent_open sha256 (step sha256 o w)
  ∧ distinct_nullifiers sha256 (self (step sha256 o w)).
Proof.
  intros Hok Hfresh [Hun Hdis].
  assert (Hw : ∀ a r,
    unspent_open sha256 (snd (withdraw sha256 a r w))
    ∧ distinct_nullifiers sha256 (self (snd (withdraw sha256 a r w)))).
  { intros a r. destruct (withdraw sha256 a r w) as [[res|e] w'] eqn:E.
    - destruct (withdraw_Ok _ _ _ _ _ Hok E)
        as (pre & c & post & Eg & _ & _ & _ & Hnk & _ & Ed & ->).
      pose proof Hok as [Hnd Hkeys _]. simpl.
      assert (Hc : (hex (value c), c) ∈ commitments (self w)).
      { rewrite Eg. apply elem_of_app. right. apply list_elem_of_here. }
      split.
      + intros c' Hc'. simpl in Hc'.
        apply dict_values_elem in Hc' as [k' Hk'].
        apply (dict_delitem_elem _ _ _ _ Hnd Ed) in Hk' as [Hk' Hne].
        unfold nullifier_key in *. simpl in *.
        apply not_elem_of_union. split.
        * rewrite not_elem_of_singleton. intros En. apply Hne.
          exact (Hdis _ _ _ _ Hk' Hc En).
        * apply Hun. eapply dict_value_elem; eauto.
      + intros k1 c1 k2 c2 H1 H2. simpl in H1, H2.
        apply (dict_delitem_elem _ _ _ _ Hnd Ed) in H1 as [H1 _].
        apply (dict_delitem_elem _ _ _ _ Hnd Ed) in H2 as [H2 _].
        unfold nullifier_key in *. simpl. eauto.
    - destruct (withdraw_Raise _ _ _ _ _ Hok E) as [-> _]. now split. }
  destruct o as [a|a r|r a memo]; unfold step, run, private_transfer;
    [|apply Hw|apply Hw].
  simpl in Hfresh.
  destruct (deposit_commitment sha256 a w) as [c|] eqn:E.
  - destruct (fresh_deposit_true _ _ _ Hfresh E) as [Hnew Hother].
    rewrite (deposit_Some _ _ _ E). pose proof Hok as [Hnd Hkeys _].
    simpl. split.
    + intros c' Hc'. simpl in Hc'.
      apply dict_values_elem in Hc' as [k' Hk'].
      unfold nullifier_key in *. simpl in *.
      apply dict_setitem_elem in Hk' as [[= -> ->]|Hk']; [assumption|].
      apply Hun. eapply dict_value_elem; eauto.
    + intros k1 c1 k2 c2 H1 H2. simpl in H1, H2.
      unfold nullifier_key in *. simpl in *.
      apply (dict_setitem_elem_nodup _ _ _ _ Hnd) in H1, H2.
      destruct H1 as [[= -> ->]|[H1 N1]], H2 as [[= -> ->]|[H2 N2]];
        simpl in *; intros En; eauto.
      symmetry. eauto.
  - destruct (deposit_None _ _ E) as [msg ->]. now split.
Qed.

Lemma reachable_fresh_invariant w :
  reachable_fresh sha256 w →
  unspent_open sha256 w ∧ distinct_nullifiers sha256 (self w).
Proof.
  induction 1 as [sk pk e|o w Hw IH Hfresh].
  - split.
    + intros c Hc. inversion Hc.
    + intros k1 c1 k2 c2 H1. inversion H1.
  - apply fresh_step_invariant; auto.
    apply reachable_ledger_ok. now apply reachable_fresh_reachable.
Qed.

(** Withdrawing 0 takes the head of the dictionary when its nullifier is
    unspent. *)
Lemma withdraw_zero_head (r : string) w (k : string) c rest :
  ledger_ok (self w) → commitments (self w) = (k, c) :: rest →
  nullifier_key sha256 (self w) c ∉ nullifiers (self w) →
  ∃ w', withdraw sha256 0 r w = (Ok "withdraw_tx_signature"%string, w')
        ∧ commitments (self w') = rest
        ∧ nullifiers (self w')
          = {[ nullifier_key sha256 (self w) c ]} ∪ nullifiers (self w)
        ∧ balance w' = balance w - amount c.
Proof.
  intros [Hnd Hkeys Hamt] Eg Hnk.
  assert (Hin : (k, c) ∈ commitments (self w))
    by (rewrite Eg; apply list_elem_of_here).
  pose proof (Hkeys _ _ Hin) as ->. pose proof (Hamt _ _ Hin) as Ha.
  rewrite withdraw_eq. unfold first_fit, balance. rewrite Eg. simpl.
  destruct (Z.geb_spec (amount c) 0) as [_|Hlt]; [|lia].
  rewrite bool_decide_eq_false_2 by assumption.
  rewrite String.eqb_refl. eexists. split; [reflexivity|]. simpl.
  repeat split. lia.
Qed.


(** A deposit of an amount that fits in eight bytes stores a commitment
    of that amount. *)
Lemma step_deposit (a : Z) w :
  0 <= a < 2 ^ 64 →
  ∃ c, amount c = a
       ∧ step sha256 (Deposit a) w
         = {| self := set_commitments
                        (dict_setitem (hex (value c)) c
                           (commitments (self w))) (self w);
              entropy := entropy w; drawn := (drawn w + 32)%nat |}.
Proof.
  intros Ha.
  destruct (deposit_commitment sha256 a w) as [c|] eqn:E.
  - exists c. split; [now apply deposit_commitment_amount in E|].
    unfold step, run. now rewrite (deposit_Some _ _ _ E).
  - rewrite deposit_commitment_eq, (to_bytes_ok a Ha) in E. discriminate.
Qed.

End ClientFacts.

(** * The claims *)

Section Claims.

Variable sha256 : bytes -> bytes.

Implicit Types (w : World) (c : Commitment).

(** C7: for a fixed recipient, amount and nonce, [generate_commitment]
    returns in every state the same commitment, whose value is the hash of
    the recipient's bytes, followed by the amount as eight little-endian
    bytes, followed by the nonce; it leaves the state as it was. The amount
    is a [uint64], as in the data model of the specification. *)
Theorem commit_deterministic (a : Z) (recipient : string) (n : bytes) :
  0 <= a < 2 ^ 64 →
  ∃ b : bytes,
    length b = 8%nat ∧ from_bytes_little b = a
    ∧ ∀ w, generate_commitment sha256 a recipient (Some n) w
           = (Ok {| value := sha256 (encode recipient ++ b ++ n);
                    nonce := n; amount := a |}, w).
Proof.
  intros Ha. exists (le_bytes 8 a). split; [apply length_le_bytes|]. split.
  - rewrite from_bytes_little_le_bytes. apply Z.mod_small.
    change (256 ^ Z.of_nat 8) with (2 ^ 64). exact Ha.
  - intros w. rewrite generate_commitment_eq. now rewrite to_bytes_ok.
Qed.

(** C8: [generate_balance_proof B] returns a proof exactly when the total
    private balance is at least [B] and raises "Insufficient balance"
    exactly when it is below; with total [T] it returns at [B = T] and
    raises at [B = T + 1]. The state is not changed. *)
Theorem balance_proof_threshold (B : Z) w :
  get_private_balance w = (Ok (balance w), w)
  ∧ snd (generate_balance_proof B w) = w
  ∧ ((∃ p, fst (generate_balance_proof B w) = Ok p) ↔ B <= balance w)
  ∧ (fst (generate_balance_proof B w) = Raise InsufficientBalance
     ↔ balance w < B)
  ∧ (∃ p, fst (generate_balance_proof (balance w) w) = Ok p)
  ∧ fst (generate_balance_proof (balance w + 1) w)
    = Raise InsufficientBalance.
Proof.
  assert (Hgen : ∀ m, generate_balance_proof m w =
            if balance w <? m then (Raise InsufficientBalance, w)
            else (Ok {| proof := encode "proof_data";
                        public_signals := [m] |}, w)).
  { intros m. unfold generate_balance_proof, bind.
    rewrite get_private_balance_eq. now destruct (balance w <? m). }
  split; [reflexivity|]. rewrite !Hgen.
  split; [now destruct (balance w <? B)|].
  split; [|split; [|split]].
  - destruct (Z.ltb_spec (balance w) B); simpl.
    + split; [intros [p Hp]; discriminate | lia].
    + split; [auto | eauto].
  - destruct (Z.ltb_spec (balance w) B); simpl.
    + split; auto.
    + split; [discriminate | lia].
  - rewrite Z.ltb_irrefl. simpl. eauto.
  - destruct (Z.ltb_spec (balance w) (balance w + 1)); [reflexivity | lia].
Qed.

(** C9: when [withdraw] raises "Insufficient balance" or "Commitment
    already spent", the open commitments, the spent nullifiers and the
    rest of the state are as they were before the call. *)
Theorem withdraw_error_atomic (x : Z) (r : string) w (e : exn) w' :
  withdraw sha256 x r w = (Raise e, w') →
  e = InsufficientBalance ∨ e = AlreadySpent →
  w' = w.
Proof.
  rewrite withdraw_eq.
  destruct (first_fit x (commitments (self w))) as [c|];
    [|now intros [= _ <-]].
  cbv zeta. case_bool_decide; [now intros [= _ <-]|].
  destruct (dict_delitem _ _); [discriminate|].
  intros [= <- _] [He|He]; discriminate.
Qed.

(** C6: [withdraw x] raises "Insufficient balance" exactly when no open
    commitment has an amount of at least [x], whatever the total; otherwise
    it picks the first commitment in the dictionary's order whose amount is
    at least [x]; when it returns, exactly that entry has left the
    dictionary, the others keep their order, and no entry is added. When
    the commitment picked is already spent it raises and tries no other.
    The order of the dictionary is the order of insertion: a deposit under
    a new key goes to the end. *)
Theorem withdraw_first_fit (x : Z) (r : string) w :
  reachable sha256 w →
  (fst (withdraw sha256 x r w) = Raise InsufficientBalance
   ↔ ∀ c, c ∈ dict_values (commitments (self w)) → amount c < x)
  ∧ (∀ c, first_fit x (commitments (self w)) = Some c
          ↔ ∃ pre post,
              dict_values (commitments (self w)) = pre ++ c :: post
              ∧ (∀ c', c' ∈ pre → amount c' < x) ∧ x <= amount c)
  ∧ (∀ res w', withdraw sha256 x r w = (Ok res, w') →
       ∃ pre c post,
         commitments (self w) = pre ++ (hex (value c), c) :: post
         ∧ (∀ kc, kc ∈ pre → amount (snd kc) < x) ∧ x <= amount c
         ∧ commitments (self w') = pre ++ post)
  ∧ (∀ e w', withdraw sha256 x r w = (Raise e, w') →
       e = InsufficientBalance
       ∨ (e = AlreadySpent
          ∧ ∃ c, first_fit x (commitments (self w)) = Some c
                 ∧ nullifier_key sha256 (self w) c ∈ nullifiers (self w)))
  ∧ (∀ (a : Z) c, deposit_commitment sha256 a w = Some c →
       hex (value c) ∉ dict_keys (commitments (self w)) →
       commitments (self (step sha256 (Deposit a) w))
       = commitments (self w) ++ [(hex (value c), c)]).
Proof.
  intros Hw. apply reachable_ledger_ok in Hw.
  split; [|split; [|split; [|split]]].
  - rewrite <- first_fit_None. split.
    + intros Hf.
      destruct (withdraw sha256 x r w) as [[res|e] w'] eqn:E;
        simpl in Hf; [discriminate|]. injection Hf as ->.
      destruct (withdraw_Raise _ _ _ _ _ _ Hw E) as [_ [[_ H]|[H _]]];
        [assumption | discriminate].
    + intros Hn. rewrite withdraw_eq, Hn. reflexivity.
  - intros c. apply first_fit_Some.
  - intros res w' E.
    destruct (withdraw_Ok _ _ _ _ _ _ Hw E)
      as (pre & c & post & Eg & _ & Hpre & Hx & _ & _ & _ & ->).
    exists pre, c, post. repeat split; auto.
  - intros e w' E.
    destruct (withdraw_Raise _ _ _ _ _ _ Hw E) as [_ [[-> _]|[-> H]]]; auto.
  - intros a c E Hk. unfold step, run. rewrite (deposit_Some _ _ _ _ E).
    simpl. now apply dict_setitem_new.
Qed.

(** C5, as the code has it: a call of [withdraw] that returns has picked
    the first commitment [c] that fits; the key of its nullifier was not in
    the spent set and is added to it; exactly the entry of [c] leaves the
    open commitments, so that no open commitment has its value any more;
    the total private balance goes down by the amount of [c], which is at
    least the amount asked for; and the value returned is the fixed text
    "withdraw_tx_signature". *)
Theorem withdraw_effect (x : Z) (r : string) w (res : string) w' :
  reachable sha256 w → withdraw sha256 x r w = (Ok res, w') →
  ∃ c nf,
    first_fit x (commitments (self w)) = Some c
    ∧ generate_nullifier sha256 c w = (Ok nf, w)
    ∧ nullifier_commitment nf = value c
    ∧ (hex (nullifier_value nf) ∉ nullifiers (self w))
    ∧ nullifiers (self w')
      = {[ hex (nullifier_value nf) ]} ∪ nullifiers (self w)
    ∧ (∀ k c', (k, c') ∈ commitments (self w')
               ↔ (k, c') ∈ commitments (self w) ∧ k ≠ hex (value c))
    ∧ (∀ c', c' ∈ dict_values (commitments (self w')) → value c' ≠ value c)
    ∧ balance w' = balance w - amount c
    ∧ x <= amount c
    ∧ res = "withdraw_tx_signature"%string.
Proof.
  intros Hw E. apply reachable_ledger_ok in Hw.
  destruct (withdraw_Ok _ _ _ _ _ _ Hw E)
    as (pre & c & post & Eg & Ef & _ & Hx & Hnk & -> & Ed & ->).
  pose proof Hw as [Hnd Hkeys _].
  exists c, {| nullifier_value := sha256 (value c ++ private_key (self w));
               nullifier_commitment := value c |}.
  split; [assumption|]. split; [reflexivity|]. split; [reflexivity|].
  split; [exact Hnk|]. split; [reflexivity|].
  split; [intros k c'; apply (dict_delitem_elem _ _ _ (k, c') Hnd Ed)|].
  split.
  { intros c' Hc' Ev. apply dict_values_elem in Hc' as [k Hk].
    apply (dict_delitem_elem _ _ _ (k, c') Hnd Ed) in Hk as [Hk Hne].
    apply Hne. simpl. rewrite <- Ev. eauto. }
  split; [unfold balance; simpl; rewrite Eg, balance_split; lia|].
  split; [assumption | reflexivity].
Qed.

(** C3, as the code has it: [deposit] has no guard against a key that is
    already present. When the commitment it creates has the value of an
    open commitment, the call returns all the same, the keys and their
    order stay as they are and the entry under the key is overwritten with
    the new commitment; when the value is new, the commitment is appended
    under the hexadecimal text of its value. Other entries are kept. *)
Theorem deposit_records (a : Z) w c :
  reachable sha256 w → deposit_commitment sha256 a w = Some c →
  let w' := snd (deposit sha256 a w) in
  fst (deposit sha256 a w) = Ok "deposit_tx_signature"%string
  ∧ dict_get (hex (value c)) (commitments (self w')) = Some c
  ∧ ((∃ c0, c0 ∈ dict_values (commitments (self w)) ∧ value c0 = value c) →
     dict_keys (commitments (self w')) = dict_keys (commitments (self w)))
  ∧ ((∀ c0, c0 ∈ dict_values (commitments (self w)) → value c0 ≠ value c) →
     commitments (self w')
     = commitments (self w) ++ [(hex (value c), c)])
  ∧ (∀ k c0, (k, c0) ∈ commitments (self w) → k ≠ hex (value c) →
             (k, c0) ∈ commitments (self w'))
  ∧ nullifiers (self w') = nullifiers (self w).
Proof.
  intros Hw E. apply reachable_ledger_ok in Hw as [Hnd Hkeys _].
  rewrite (deposit_Some _ _ _ _ E). simpl.
  split; [reflexivity|]. split; [apply dict_setitem_get|].
  split; [|split; [|split; [|reflexivity]]].
  - intros (c0 & Hc0 & Ev). apply dict_setitem_keys.
    apply dict_values_elem in Hc0 as [k Hk].
    pose proof (Hkeys _ _ Hk) as ->. rewrite <- Ev.
    eapply dict_key_elem; eauto.
  - intros Hnew. apply dict_setitem_new. intros Hk.
    apply list_elem_of_In, in_map_iff in Hk as [[k c0] [Ek Hin]].
    simpl in Ek. subst k. apply list_elem_of_In in Hin.
    pose proof (Hkeys _ _ Hin) as Ek. apply hex_inj in Ek.
    apply (Hnew c0); [|congruence]. eapply dict_value_elem; eauto.
  - intros k c0 Hin Hne. now apply dict_setitem_other.
Qed.

(** C4, as the code has it: [generate_commitment] does not test the sign
    of the amount. It returns a commitment for every amount from 0 to
    [2^64 - 1], zero included; for a negative amount and for one of
    [2^64] or more the conversion to eight bytes raises [OverflowError]. *)
Theorem commit_amount_range
    (a : Z) (recipient : string) (n : option bytes) w :
  (0 <= a < 2 ^ 64 →
   ∃ c, fst (generate_commitment sha256 a recipient n w) = Ok c
        ∧ amount c = a)
  ∧ (¬ (0 <= a < 2 ^ 64) →
     ∃ msg, fst (generate_commitment sha256 a recipient n w)
            = Raise (OverflowError msg)).
Proof.
  unfold generate_commitment, bind, ret, lift, random. split; intros Ha.
  - rewrite (to_bytes_ok a Ha). destruct n; simpl; eauto.
  - destruct (to_bytes_range a Ha) as [msg ->]. destruct n; simpl; eauto.
Qed.

(** C2, as the code has it: on a new client, after [deposit 1000000000]
    and [deposit 500000000] (two distinct commitments) the total private
    balance is 1500000000; [withdraw 500000000] then returns and consumes
    the commitment of 1000000000, the first in the dictionary that fits,
    leaving the commitment of 500000000 and a total of 500000000; after
    that, [withdraw 2000000000] raises "Insufficient balance". *)
Theorem scenario (sk pk : bytes) (e : nat → byte) (r r' : string) :
  let w2 := run_ops sha256 [Deposit 1000000000; Deposit 500000000]
              (initial sk pk e) in
  let w3 := step sha256 (Withdraw 500000000 r) w2 in
  length (commitments (self w2)) = 2%nat →
  balance w2 = 1500000000
  ∧ fst (withdraw sha256 500000000 r w2) = Ok "withdraw_tx_signature"%string
  ∧ (∃ c, consumed sha256 (Withdraw 500000000 r) w2 = Some c
          ∧ amount c = 1000000000)
  ∧ map amount (dict_values (commitments (self w3))) = [500000000]
  ∧ balance w3 = 500000000
  ∧ withdraw sha256 2000000000 r' w3 = (Raise InsufficientBalance, w3).
Proof.
  unfold run_ops. cbn [fold_left].
  destruct (step_deposit sha256 1000000000 (initial sk pk e))
    as (c1 & A1 & ->); [lia|].
  match goal with
  | |- context [step sha256 (Deposit 500000000) ?w] =>
      destruct (step_deposit sha256 500000000 w) as (c2 & A2 & ->); [lia|]
  end.
  cbn [self commitments set_commitments initial dict_setitem entropy drawn
       private_key public_key nullifiers].
  destruct (String.eqb_spec (hex (value c2)) (hex (value c1))) as [_|Hne];
    [discriminate|].
  intros _.
  match goal with
  | |- context [withdraw sha256 500000000 r ?w] => set (w2 := w)
  end.
  assert (Ecs : commitments (self w2)
                = [(hex (value c1), c1); (hex (value c2), c2)])
    by reflexivity.
  assert (Ens : nullifiers (self w2) = ∅) by reflexivity.
  assert (Ef : first_fit 500000000 (commitments (self w2)) = Some c1).
  { rewrite Ecs. unfold first_fit. cbn [dict_values map snd find].
    now rewrite A1. }
  assert (Ew : withdraw sha256 500000000 r w2
               = (Ok "withdraw_tx_signature"%string,
                  {| self := set_commitments [(hex (value c2), c2)]
                               (set_nullifiers
                                  ({[ nullifier_key sha256 (self w2) c1 ]}
                                     ∪ nullifiers (self w2)) (self w2));
                     entropy := entropy w2; drawn := drawn w2 |})).
  { rewrite withdraw_eq, Ef. cbv zeta.
    rewrite bool_decide_eq_false_2 by (rewrite Ens; set_solver).
    rewrite Ecs. cbn [dict_delitem]. now rewrite String.eqb_refl. }
  unfold step, run, consumed. rewrite Ew. cbn [fst snd].
  split; [unfold balance; rewrite Ecs; simpl; lia|].
  split; [reflexivity|]. split; [eauto|].
  split; [simpl; now rewrite A2|].
  split; [unfold balance; simpl; lia|].
  rewrite withdraw_eq. unfold first_fit.
  cbn [self commitments set_commitments dict_values map find snd].
  now rewrite A2.
Qed.

(** C1, as the code has it. Along any run from any state, no commitment
    value is consumed twice; a call of [withdraw] that picks a commitment
    whose nullifier is spent raises "Commitment already spent" and changes
    nothing; after a call that returns, no open commitment has the value
    consumed and its nullifier is spent; and in every state reached from a
    new client by a run in which each deposit brings a new nullifier, no
    open commitment has its nullifier in the spent set. *)
Theorem no_double_spend :
  (∀ ops w, NoDup (spend_log sha256 ops w))
  ∧ (∀ (x : Z) (r : string) w c,
       first_fit x (commitments (self w)) = Some c →
       nullifier_key sha256 (self w) c ∈ nullifiers (self w) →
       withdraw sha256 x r w = (Raise AlreadySpent, w))
  ∧ (∀ (x : Z) (r : string) w (res : string) w',
       reachable sha256 w → withdraw sha256 x r w = (Ok res, w') →
       ∃ c, first_fit x (commitments (self w)) = Some c
            ∧ nullifier_key sha256 (self w') c ∈ nullifiers (self w')
            ∧ ∀ c', c' ∈ dict_values (commitments (self w')) →
                    value c' ≠ value c)
  ∧ (∀ w, reachable_fresh sha256 w → unspent_open sha256 w).
Proof.
  split; [apply spend_log_NoDup|]. split; [|split].
  - intros x r w c Ef Hnk. rewrite withdraw_eq, Ef. cbv zeta.
    now rewrite bool_decide_eq_true_2.
  - intros x r w res w' Hw E. apply reachable_ledger_ok in Hw.
    destruct (withdraw_Ok _ _ _ _ _ _ Hw E)
      as (pre & c & post & Eg & Ef & _ & _ & _ & _ & Ed & ->).
    pose proof Hw as [Hnd Hkeys _].
    exists c. split; [assumption|]. unfold nullifier_key. simpl.
    split; [set_solver|].
    intros c' Hc' Ev. apply dict_values_elem in Hc' as [k Hk].
    apply (dict_delitem_elem _ _ _ (k, c') Hnd Ed) in Hk as [Hk Hne].
    apply Hne. simpl. rewrite <- Ev. eauto.
  - intros w Hw. now apply reachable_fresh_invariant.
Qed.

(** C10, as the code has it: on a reachable ledger whose first open
    commitment is not yet nullified, [withdraw 0] returns, takes exactly
    that first commitment out of the dictionary, records its nullifier,
    and lowers the total private balance by its whole amount. *)
Theorem withdraw_zero (r : string) w (k : string) c rest :
  reachable sha256 w → commitments (self w) = (k, c) :: rest →
  nullifier_key sha256 (self w) c ∉ nullifiers (self w) →
  ∃ w', withdraw sha256 0 r w = (Ok "withdraw_tx_signature"%string, w')
        ∧ commitments (self w') = rest
        ∧ nullifiers (self w')
          = {[ nullifier_key sha256 (self w) c ]} ∪ nullifiers (self w)
        ∧ balance w' = balance w - amount c.
Proof.
  intros Hw. apply withdraw_zero_head.
  now apply (reachable_ledger_ok sha256).
Qed.

(** When every deposit has brought a new nullifier, the first open
    commitment is never nullified, and [withdraw 0] returns. *)
Lemma withdraw_zero_fresh (r : string) w :
  reachable_fresh sha256 w → commitments (self w) ≠ [] →
  ∃ w', withdraw sha256 0 r w = (Ok "withdraw_tx_signature"%string, w')
        ∧ commitments (self w') = tl (commitments (self w)).
Proof.
  intros Hw Hne.
  destruct (commitments (self w)) as [|[k c] rest] eqn:Eg; [done|].
  destruct (reachable_fresh_invariant _ _ Hw) as [Hun _].
  destruct (withdraw_zero_head sha256 r w k c rest) as (w' & E & Ec & _).
  - apply (reachable_ledger_ok sha256). now apply reachable_fresh_reachable.
  - assumption.
  - apply Hun. rewrite Eg. apply list_elem_of_here.
  - eauto.
Qed.


End Claims.

(** * The claims on concrete runs, with [hashlib]'s SHA-256 *)

Lemma commit_deterministic_witness :
  0 <= 1000000000 < 2 ^ 64
  ∧ ∃ b : bytes,
      length b = 8%nat ∧ from_bytes_little b = 1000000000
      ∧ ∀ w, generate_commitment SHA256.digest 1000000000 "alice"
               (Some sample_nonce) w
             = (Ok {| value := SHA256.digest
                                 (encode "alice" ++ b ++ sample_nonce);
                      nonce := sample_nonce; amount := 1000000000 |}, w).
Proof.
  split; [lia|]. apply (commit_deterministic SHA256.digest). lia.
Defined.

Lemma withdraw_error_atomic_witness :
  fst (withdraw SHA256.digest 5 "bob" respent_client) = Raise AlreadySpent
  ∧ snd (withdraw SHA256.digest 5 "bob" respent_client) = respent_client.
Proof.
  assert (E : fst (withdraw SHA256.digest 5 "bob" respent_client)
              = Raise AlreadySpent) by (vm_compute; reflexivity).
  split; [exact E|].
  apply (withdraw_error_atomic SHA256.digest 5 "bob" respent_client
           AlreadySpent).
  - rewrite <- E. apply surjective_pairing.
  - right. reflexivity.
Defined.

Lemma small_deposits_reachable : reachable SHA256.digest small_deposits.
Proof.
  unfold small_deposits, new_client, run_ops. cbn [fold_left].
  do 2 apply reach_step. apply reach_initial.
Qed.

Lemma withdraw_first_fit_witness :
  reachable SHA256.digest small_deposits
  ∧ balance small_deposits = 6
  ∧ fst (withdraw SHA256.digest 5 "bob" small_deposits)
    = Raise InsufficientBalance.
Proof.
  split; [apply small_deposits_reachable|].
  split; [vm_compute; reflexivity|].
  apply (withdraw_first_fit SHA256.digest 5 "bob" small_deposits
           small_deposits_reachable).
  vm_compute. intros c Hc.
  repeat (apply elem_of_cons in Hc as [->|Hc]; [reflexivity|]).
  inversion Hc.
Defined.

Lemma two_deposits_reachable : reachable SHA256.digest two_deposits.
Proof.
  unfold two_deposits, new_client, run_ops. cbn [fold_left].
  do 2 apply reach_step. apply reach_initial.
Qed.

Lemma respent_client_reachable : reachable SHA256.digest respent_client.
Proof.
  unfold respent_client, stuck_client, run_ops. cbn [fold_left].
  do 3 apply reach_step. apply reach_initial.
Qed.

Lemma busy_client_fresh : reachable_fresh SHA256.digest busy_client.
Proof.
  unfold busy_client, busy_ops, new_client, run_ops. cbn [fold_left].
  do 4 (apply fresh_step; [|vm_compute; reflexivity]).
  apply fresh_initial.
Qed.

(** C1, counterexample: after a deposit, its withdrawal and a second deposit
    that draws the same nonce, the commitment is open again while its
    nullifier is in the spent set. *)
Lemma respent_commitment_open_and_spent :
  reachable SHA256.digest respent_client
  ∧ ¬ unspent_open SHA256.digest respent_client.
Proof.
  split; [apply respent_client_reachable|]. intros H.
  assert (E : existsb
                (fun c => bool_decide
                            (nullifier_key SHA256.digest (self respent_client) c
                             ∈ nullifiers (self respent_client)))
                (dict_values (commitments (self respent_client))) = true)
    by (vm_compute; reflexivity).
  apply existsb_exists in E as (c & Hc & Hn).
  apply bool_decide_eq_true in Hn. apply list_elem_of_In in Hc.
  exact (H c Hc Hn).
Qed.

Lemma no_double_spend_witness :
  reachable_fresh SHA256.digest busy_client
  ∧ unspent_open SHA256.digest busy_client
  ∧ NoDup (spend_log SHA256.digest busy_ops new_client).
Proof.
  destruct (no_double_spend SHA256.digest) as (Hlog & _ & _ & Hopen).
  split; [apply busy_client_fresh|].
  split; [apply Hopen, busy_client_fresh | apply Hlog].
Defined.

(** C2, counterexample: in the scenario, [withdraw 500000000] consumes the
    commitment of 1000000000, which comes first in the dictionary, and the
    total left is 500000000, not 1000000000. *)
Lemma scenario_consumes_first_deposit :
  balance two_deposits = 1500000000
  ∧ fst (withdraw SHA256.digest 500000000 "bob" two_deposits)
    = Ok "withdraw_tx_signature"%string
  ∧ map amount
      (dict_values
         (commitments
            (self (step SHA256.digest (Withdraw 500000000 "bob")
                     two_deposits))))
    = [500000000]
  ∧ balance (step SHA256.digest (Withdraw 500000000 "bob") two_deposits)
    ≠ 1000000000.
Proof.
  split; [|split; [|split]]; vm_compute; try reflexivity. discriminate.
Qed.

Lemma scenario_witness :
  length (commitments (self two_deposits)) = 2%nat
  ∧ balance two_deposits = 1500000000
  ∧ balance (step SHA256.digest (Withdraw 500000000 "bob") two_deposits)
    = 500000000.
Proof.
  assert (H : length (commitments (self two_deposits)) = 2%nat)
    by (vm_compute; reflexivity).
  split; [exact H|].
  pose proof (scenario SHA256.digest sample_private_key sample_public_key
                counting_entropy "bob" "bob" H) as (Hb & _ & _ & _ & Hb' & _).
  split; [exact Hb | exact Hb'].
Defined.

(** C3, counterexample: a deposit whose commitment has the key of an open
    commitment returns as any other; nothing is raised. *)
Lemma deposit_duplicate_accepted :
  match deposit_commitment SHA256.digest 5
          (step SHA256.digest (Deposit 5) stuck_client) with
  | Some c =>
      dict_contains (hex (value c))
        (commitments (self (step SHA256.digest (Deposit 5) stuck_client)))
  | None => false
  end = true
  ∧ fst (deposit SHA256.digest 5
           (step SHA256.digest (Deposit 5) stuck_client))
    = Ok "deposit_tx_signature"%string.
Proof. split; vm_compute; reflexivity. Qed.

Lemma deposit_records_witness :
  reachable SHA256.digest two_deposits
  ∧ ∃ c, deposit_commitment SHA256.digest 7 two_deposits = Some c
         ∧ fst (deposit SHA256.digest 7 two_deposits)
           = Ok "deposit_tx_signature"%string
         ∧ dict_get (hex (value c))
             (commitments (self (snd (deposit SHA256.digest 7 two_deposits))))
           = Some c.
Proof.
  split; [apply two_deposits_reachable|].
  destruct (deposit_commitment SHA256.digest 7 two_deposits) as [c|] eqn:E;
    [|vm_compute in E; discriminate].
  exists c. split; [reflexivity|].
  pose proof (deposit_records SHA256.digest 7 two_deposits c
                two_deposits_reachable E) as (H1 & H2 & _).
  split; [exact H1 | exact H2].
Defined.

(** C4, counterexample: an amount of 0 is accepted. *)
Lemma commit_zero_accepted :
  ∃ c, fst (generate_commitment SHA256.digest 0 "alice" (Some sample_nonce)
              new_client) = Ok c
       ∧ amount c = 0.
Proof. eexists. split; [reflexivity|]. reflexivity. Qed.

Lemma commit_amount_range_witness :
  (0 <= 7 < 2 ^ 64
   ∧ ∃ c, fst (generate_commitment SHA256.digest 7 "alice" None new_client)
          = Ok c ∧ amount c = 7)
  ∧ (¬ (0 <= -1 < 2 ^ 64)
     ∧ ∃ msg, fst (generate_commitment SHA256.digest (-1) "alice" None
                     new_client) = Raise (OverflowError msg)).
Proof.
  split.
  - split; [lia|].
    apply (commit_amount_range SHA256.digest 7 "alice" None new_client). lia.
  - split; [lia|].
    apply (commit_amount_range SHA256.digest (-1) "alice" None new_client).
    lia.
Defined.

(** C5, counterexample: two calls that consume different commitments return
    the same text, which names neither a nullifier nor a commitment. *)
Lemma withdraw_returns_no_receipt :
  option_map amount
    (consumed SHA256.digest (Withdraw 500000000 "bob") two_deposits)
  = Some 1000000000
  ∧ option_map amount
      (consumed SHA256.digest (Withdraw 500000000 "bob")
         (step SHA256.digest (Withdraw 500000000 "bob") two_deposits))
    = Some 500000000
  ∧ fst (withdraw SHA256.digest 500000000 "bob" two_deposits)
    = Ok "withdraw_tx_signature"%string
  ∧ fst (withdraw SHA256.digest 500000000 "bob"
           (step SHA256.digest (Withdraw 500000000 "bob") two_deposits))
    = Ok "withdraw_tx_signature"%string.
Proof. split; [|split; [|split]]; vm_compute; reflexivity. Qed.

Lemma withdraw_effect_witness :
  reachable SHA256.digest two_deposits
  ∧ fst (withdraw SHA256.digest 500000000 "bob" two_deposits)
    = Ok "withdraw_tx_signature"%string
  ∧ ∃ c, first_fit 500000000 (commitments (self two_deposits)) = Some c
         ∧ balance (snd (withdraw SHA256.digest 500000000 "bob" two_deposits))
           = balance two_deposits - amount c.
Proof.
  assert (E : fst (withdraw SHA256.digest 500000000 "bob" two_deposits)
              = Ok "withdraw_tx_signature"%string) by (vm_compute; reflexivity).
  split; [apply two_deposits_reachable|]. split; [exact E|].
  destruct (withdraw_effect SHA256.digest 500000000 "bob" two_deposits
              "withdraw_tx_signature"
              (snd (withdraw SHA256.digest 500000000 "bob" two_deposits))
              two_deposits_reachable)
    as (c & nf & Hf & _ & _ & _ & _ & _ & _ & Hb & _).
  - rewrite <- E. apply surjective_pairing.
  - exists c. split; [exact Hf | exact Hb].
Defined.

(** C10, counterexample: a reachable ledger with an open commitment on which
    [withdraw 0] raises "Commitment already spent". *)
Lemma withdraw_zero_already_spent :
  reachable SHA256.digest respent_client
  ∧ length (commitments (self respent_client)) = 1%nat
  ∧ withdraw SHA256.digest 0 "bob" respent_client
    = (Raise AlreadySpent, respent_client).
Proof.
  split; [apply respent_client_reachable|].
  split; vm_compute; reflexivity.
Qed.

Lemma withdraw_zero_witness :
  reachable SHA256.digest two_deposits
  ∧ ∃ k c rest,
      commitments (self two_deposits) = (k, c) :: rest
      ∧ (nullifier_key SHA256.digest (self two_deposits) c
         ∉ nullifiers (self two_deposits))
      ∧ ∃ w', withdraw SHA256.digest 0 "bob" two_deposits
              = (Ok "withdraw_tx_signature"%string, w')
              ∧ commitments (self w') = rest
              ∧ balance w' = balance two_deposits - amount c.
Proof.
  split; [apply two_deposits_reachable|].
  destruct (commitments (self two_deposits)) as [|[k c] rest] eqn:E;
    [vm_compute in E; discriminate|].
  assert (Hn : nullifiers (self two_deposits) = ∅) by (vm_compute; reflexivity).
  assert (Hnk : nullifier_key SHA256.digest (self two_deposits) c
                ∉ nullifiers (self two_deposits))
    by (rewrite Hn; apply not_elem_of_empty).
  exists k, c, rest. split; [reflexivity|]. split; [exact Hnk|].
  destruct (withdraw_zero SHA256.digest "bob" two_deposits k c rest
              two_deposits_reachable E Hnk) as (w' & Ew & Ec & _ & Eb).
  exists w'. split; [exact Ew|]. split; [exact Ec | exact Eb].
Defined.

(** * More properties of the client *)

Section ClientRunsFacts.
Variable sha256 : bytes -> bytes.
Implicit Types (w : World) (c : Commitment).

Lemma length_hex (b : bytes) : String.length (hex b) = (2 * length b)%nat.
Proof. induction b as [|x b IH]; simpl; [reflexivity|]. rewrite IH. lia. Qed.

Lemma hex_digit_in_alphabet (n : Z) :
  ∃ i, String.get i hexdigits = Some (hex_digit n).
Proof.
  unfold hex_digit. destruct (String.get (Z.to_nat n) hexdigits) eqn:E.
  - eauto.
  - exists 0%nat. reflexivity.
Qed.

Lemma step_public_key o w :
  public_key (self (step sha256 o w)) = public_key (self w).
Proof.
  assert (Hw : ∀ a r, public_key (self (snd (withdraw sha256 a r w)))
                      = public_key (self w)).
  { intros a r. rewrite withdraw_eq.
    destruct (first_fit a _) as [c|]; [|reflexivity]. simpl.
    destruct (bool_decide _); [reflexivity|].
    destruct (dict_delitem _ _); reflexivity. }
  destruct o as [a|a r|r a memo]; unfold step, run, private_transfer;
    [|apply Hw|apply Hw].
  destruct (deposit_commitment sha256 a w) as [c|] eqn:E.
  - now rewrite (deposit_Some _ _ _ _ E).
  - destruct (deposit_None _ _ _ E) as [msg ->]. reflexivity.
Qed.

Lemma withdraw_commitments_sub (a : Z) (r : string) w (x : string * Commitment) :
  x ∈ commitments (self (snd (withdraw sha256 a r w))) →
  x ∈ commitments (self w).
Proof.
  rewrite withdraw_eq.
  destruct (first_fit a _) as [c|]; [|auto]. simpl.
  destruct (bool_decide _); [auto|].
  destruct (dict_delitem _ _) eqn:E; simpl; [|auto].
  eapply dict_delitem_sub; eauto.
Qed.

Lemma run_ops_cons o ops w :
  run_ops sha256 (o :: ops) w = run_ops sha256 ops (step sha256 o w).
Proof. reflexivity. Qed.

Lemma run_ops_reachable ops w :
  reachable sha256 w → reachable sha256 (run_ops sha256 ops w).
Proof.
  revert w. induction ops as [|o ops IH]; intros w Hw; [exact Hw|].
  rewrite run_ops_cons. apply IH. now constructor.
Qed.

(** X1: on a reachable ledger every open commitment sits under the
    hexadecimal text of its value, and its value is the hash of the client's
    identifier, its amount on eight little-endian bytes (which decode to the
    amount) and its nonce of 32 bytes: whoever knows the amount and the nonce
    can recompute it. *)
Theorem open_commitments_recomputable w (k : string) c :
  reachable sha256 w → (k, c) ∈ commitments (self w) →
  k = hex (value c)
  ∧ value c = sha256 (encode (hex (public_key (self w)))
                        ++ le_bytes 8 (amount c) ++ nonce c)
  ∧ length (nonce c) = 32%nat
  ∧ 0 <= amount c < 2 ^ 64
  ∧ from_bytes_little (le_bytes 8 (amount c)) = amount c.
Proof.
  intros Hw Hin.
  assert (Hdep : deposited_by sha256 (public_key (self w)) c).
  { revert k c Hin. induction Hw as [sk pk e|o w Hw IH]; intros k c Hin.
    - inversion Hin.
    - rewrite step_public_key.
      destruct o as [a|a r|r a memo]; unfold step, run, private_transfer in Hin;
        [|apply withdraw_commitments_sub in Hin; eauto
         |apply withdraw_commitments_sub in Hin; eauto].
      destruct (deposit_commitment sha256 a w) as [c0|] eqn:E.
      + rewrite (deposit_Some _ _ _ _ E) in Hin. simpl in Hin.
        apply dict_setitem_elem in Hin as [[= -> ->]|Hin]; [|eauto].
        rewrite deposit_commitment_eq in E. unfold to_bytes in E.
        destruct (a <? 0); [discriminate|].
        destruct (_ <=? a); [discriminate|].
        injection E as <-. split; cbn [value nonce amount]; [reflexivity|].
        unfold next_nonce. now rewrite length_map, length_seq.
      + destruct (deposit_None _ _ _ E) as [msg Hd]. rewrite Hd in Hin. eauto. }
  destruct Hdep as [Hv Hn].
  destruct (reachable_ledger_ok _ _ Hw) as [_ Hkeys Hamt].
  pose proof (Hamt _ _ Hin) as Ha.
  split; [eauto|]. split; [assumption|]. split; [assumption|].
  split; [assumption|].
  rewrite from_bytes_little_le_bytes. apply Z.mod_small.
  change (256 ^ Z.of_nat 8) with (2 ^ 64). exact Ha.
Qed.

(** ** [get_ghost_identifier] *)

Lemma hex_alphabet (b : bytes) (i : nat) (ch : ascii) :
  String.get i (hex b) = Some ch → ∃ j, String.get j hexdigits = Some ch.
Proof.
  revert i. induction b as [|x b IH]; intros i; simpl; [discriminate|].
  destruct i as [|[|i]]; simpl.
  - intros [= <-]. apply hex_digit_in_alphabet.
  - intros [= <-]. apply hex_digit_in_alphabet.
  - apply IH.
Qed.

Lemma run_ops_public_key ops w :
  public_key (self (run_ops sha256 ops w)) = public_key (self w).
Proof.
  revert w. induction ops as [|o ops IH]; intros w; [reflexivity|].
  rewrite run_ops_cons, IH. apply step_public_key.
Qed.

(** X2: [get_ghost_identifier] leaves the state as it is and returns two
    lowercase hexadecimal digits per byte of the public key; the identifier
    is the same after any run, and two clients with the same identifier have
    the same public key. *)
Theorem ghost_identifier_faithful w :
  snd (get_ghost_identifier w) = w
  ∧ (∃ s, fst (get_ghost_identifier w) = Ok s
          ∧ String.length s = (2 * length (public_key (self w)))%nat
          ∧ ∀ i ch, String.get i s = Some ch →
                    ∃ j, String.get j hexdigits = Some ch)
  ∧ (∀ ops, fst (get_ghost_identifier (run_ops sha256 ops w))
            = fst (get_ghost_identifier w))
  ∧ (∀ w2, fst (get_ghost_identifier w2) = fst (get_ghost_identifier w) →
           public_key (self w2) = public_key (self w)).
Proof.
  unfold get_ghost_identifier, bind, gets, ret. simpl.
  split; [reflexivity|]. split; [|split].
  - exists (hex (public_key (self w))). split; [reflexivity|].
    split; [apply length_hex | apply hex_alphabet].
  - intros ops. now rewrite run_ops_public_key.
  - intros w2 [= E]. now apply hex_inj.
Qed.

(** ** [deposit] *)

Lemma deposit_keeps (a : Z) w :
  nullifiers (self (snd (deposit sha256 a w))) = nullifiers (self w)
  ∧ drawn (snd (deposit sha256 a w)) = (drawn w + 32)%nat
  ∧ entropy (snd (deposit sha256 a w)) = entropy w.
Proof.
  destruct (deposit_commitment sha256 a w) as [c|] eqn:E.
  - rewrite (deposit_Some _ _ _ _ E). simpl. auto.
  - destruct (deposit_None _ _ _ E) as [msg ->]. simpl. auto.
Qed.

Lemma deposit_commitment_Some (a : Z) w :
  0 <= a < 2 ^ 64 → ∃ c, deposit_commitment sha256 a w = Some c.
Proof.
  intros Ha. rewrite deposit_commitment_eq, (to_bytes_ok a Ha). eauto.
Qed.


Lemma dict_get_None {V} (k : string) (d : dict V) :
  k ∉ dict_keys d → dict_get k d = None.
Proof.
  induction d as [|[k' v'] d IH]; simpl; [reflexivity|].
  intros Hk. apply not_elem_of_cons in Hk as [Hne Hk].
  destruct (String.eqb_spec k k'); [done | auto].
Qed.

Lemma balance_setitem (k : string) c (d : dict Commitment) :
  fold_right Z.add 0 (map amount (dict_values (dict_setitem k c d)))
  = fold_right Z.add 0 (map amount (dict_values d)) + amount c
    - match dict_get k d with Some old => amount old | None => 0 end.
Proof.
  unfold dict_values. induction d as [|[k' c'] d IH]; simpl; [lia|].
  destruct (String.eqb_spec k k'); simpl; [lia|]. rewrite IH. lia.
Qed.

(** X4: a deposit that returns raises the total private balance by its
    amount, less the amount of the entry it overwrites when its key was
    already present; under a new key the balance grows by exactly the
    amount. *)
Theorem deposit_balance (a : Z) w c :
  deposit_commitment sha256 a w = Some c →
  balance (step sha256 (Deposit a) w)
  = balance w + a
    - match dict_get (hex (value c)) (commitments (self w)) with
      | Some old => amount old
      | None => 0
      end
  ∧ (hex (value c) ∉ dict_keys (commitments (self w)) →
     balance (step sha256 (Deposit a) w) = balance w + a).
Proof.
  intros E. destruct (deposit_commitment_amount _ _ _ _ E) as [Ea _].
  unfold step, run, balance. rewrite (deposit_Some _ _ _ _ E). simpl.
  rewrite balance_setitem, Ea. split; [reflexivity|].
  intros Hk. rewrite (dict_get_None _ _ Hk). lia.
Qed.

(** ** Balances *)

Lemma ledger_ok_balance_bounds (d : dict Commitment) :
  (∀ k c, (k, c) ∈ d → 0 <= amount c < 2 ^ 64) →
  0 <= fold_right Z.add 0 (map amount (dict_values d))
    <= (2 ^ 64 - 1) * Z.of_nat (length d)
  ∧ ∀ c, c ∈ dict_values d →
         amount c <= fold_right Z.add 0 (map amount (dict_values d)).
Proof.
  unfold dict_values. induction d as [|[k c] d IH]; intros H.
  - simpl. split; [lia|]. intros c Hc. inversion Hc.
  - assert (Hc : 0 <= amount c < 2 ^ 64)
      by (apply (H k); apply list_elem_of_here).
    destruct IH as [IH1 IH2].
    { intros k' c' Hin. apply (H k'). now apply list_elem_of_further. }
    cbn [map fold_right snd length]. rewrite Nat2Z.inj_succ. split; [lia|].
    intros c' Hc'. apply elem_of_cons in Hc' as [->|Hc']; [lia|].
    specialize (IH2 c' Hc'). lia.
Qed.

(** X5: on a reachable ledger the total private balance is never negative
    and is at most [2^64 - 1] for each open commitment. *)
Theorem balance_bounds w :
  reachable sha256 w →
  0 <= balance w
    <= (2 ^ 64 - 1) * Z.of_nat (length (commitments (self w))).
Proof.
  intros Hw. destruct (reachable_ledger_ok _ _ Hw) as [_ _ Hamt].
  now apply ledger_ok_balance_bounds.
Qed.

(** X6: on a reachable ledger, when [withdraw x] returns, [x] was at most
    the total private balance, so that [generate_balance_proof x] would have
    returned in the state before; the balance left is not negative and is
    lower by at least [x]. *)
Theorem withdraw_within_balance (x : Z) (r : string) w (res : string) w' :
  reachable sha256 w → withdraw sha256 x r w = (Ok res, w') →
  x <= balance w
  ∧ (∃ p, fst (generate_balance_proof x w) = Ok p)
  ∧ 0 <= balance w' <= balance w - x.
Proof.
  intros Hw E. pose proof (reachable_ledger_ok _ _ Hw) as Hok.
  destruct (withdraw_Ok _ _ _ _ _ _ Hok E)
    as (pre & c & post & Eg & Ef & _ & Hx & _ & _ & _ & Ew').
  pose proof Hok as [_ _ Hamt].
  destruct (ledger_ok_balance_bounds _ Hamt) as [_ Hle].
  destruct (first_fit_elem _ _ _ Ef) as [Hc _]. specialize (Hle c Hc).
  assert (Hb' : balance w' = balance w - amount c).
  { subst w'. unfold balance. simpl. rewrite Eg, balance_split. lia. }
  assert (Hok' : ledger_ok (self w')).
  { replace w' with (snd (withdraw sha256 x r w)) by now rewrite E.
    now apply withdraw_ledger_ok. }
  destruct Hok' as [_ _ Hamt'].
  destruct (ledger_ok_balance_bounds _ Hamt') as [[Hnn _] _].
  fold (balance w') in Hnn.
  fold (balance w) in Hle.
  split; [lia|]. split; [|lia].
  unfold generate_balance_proof, bind. rewrite get_private_balance_eq.
  destruct (Z.ltb_spec (balance w) x); [lia|]. simpl. eauto.
Qed.

(** X7: the proof that [generate_balance_proof] returns depends on the
    threshold alone: two states whose balances both reach it get the same
    proof, with the threshold as its only public signal. *)
Theorem balance_proof_hides_balance (B : Z) w1 w2 :
  B <= balance w1 → B <= balance w2 →
  fst (generate_balance_proof B w1) = fst (generate_balance_proof B w2)
  ∧ ∃ p, fst (generate_balance_proof B w1) = Ok p
         ∧ public_signals p = [B].
Proof.
  intros H1 H2. unfold generate_balance_proof, bind.
  rewrite !get_private_balance_eq.
  destruct (Z.ltb_spec (balance w1) B); [lia|].
  destruct (Z.ltb_spec (balance w2) B); [lia|]. simpl. eauto.
Qed.

(** ** Runs *)

Lemma step_nullifiers_size o w :
  ledger_ok (self w) →
  size (nullifiers (self (step sha256 o w)))
  = (size (nullifiers (self w))
     + match consumed sha256 o w with Some _ => 1 | None => 0 end)%nat.
Proof.
  intros Hok.
  assert (Hw : ∀ a r,
    size (nullifiers (self (snd (withdraw sha256 a r w))))
    = (size (nullifiers (self w))
       + match match fst (withdraw sha256 a r w) with
               | Ok _ => first_fit a (commitments (self w))
               | Raise _ => None
               end with Some _ => 1 | None => 0 end)%nat).
  { intros a r. destruct (withdraw sha256 a r w) as [[res|e] w'] eqn:E.
    - destruct (withdraw_Ok _ _ _ _ _ _ Hok E)
        as (pre & c & post & _ & Ef & _ & _ & Hnk & _ & _ & ->).
      simpl. rewrite Ef. rewrite size_union by set_solver.
      rewrite size_singleton. lia.
    - destruct (withdraw_Raise _ _ _ _ _ _ Hok E) as [-> _]. simpl. lia. }
  destruct o as [a|a r|r a memo]; unfold step, run, consumed, private_transfer;
    [|apply Hw|apply Hw].
  destruct (deposit_keeps a w) as (-> & _). lia.
Qed.

(** X8: along any run from a reachable ledger, the spent set grows by
    exactly one nullifier for each call of [withdraw] or [private_transfer]
    that returns, and never loses one. *)
Theorem nullifier_count ops w :
  reachable sha256 w →
  size (nullifiers (self (run_ops sha256 ops w)))
  = (size (nullifiers (self w)) + length (spend_log sha256 ops w))%nat
  ∧ nullifiers (self w) ⊆ nullifiers (self (run_ops sha256 ops w)).
Proof.
  revert w. induction ops as [|o ops IH]; intros w Hw.
  - simpl. split; [lia | reflexivity].
  - rewrite run_ops_cons.
    destruct (IH (step sha256 o w)) as [IH1 IH2]; [now constructor|].
    rewrite IH1, step_nullifiers_size by now apply (reachable_ledger_ok sha256).
    split.
    + simpl. destruct (consumed sha256 o w); simpl; lia.
    + etransitivity; [apply (step_nullifiers sha256 o w) | exact IH2].
Qed.


Lemma fresh_withdraw_fits (x : Z) (r : string) w c :
  reachable_fresh sha256 w →
  c ∈ dict_values (commitments (self w)) → x <= amount c →
  ∃ w', withdraw sha256 x r w = (Ok "withdraw_tx_signature"%string, w').
Proof.
  intros Hw Hc Hx. destruct (reachable_fresh_invariant _ _ Hw) as [Hun _].
  apply reachable_fresh_reachable, reachable_ledger_ok in Hw.
  destruct (first_fit x (commitments (self w))) as [c0|] eqn:Ef.
  - destruct (first_fit_elem _ _ _ Ef) as [Hc0 _].
    destruct (ledger_ok_delitem _ _ Hw Hc0) as (pre & post & _ & Ed & _).
    rewrite withdraw_eq, Ef. cbv zeta.
    rewrite bool_decide_eq_false_2 by now apply Hun.
    rewrite Ed. eauto.
  - rewrite first_fit_None in Ef. specialize (Ef c Hc). lia.
Qed.

(** X10: on a ledger reached by deposits that each bring a new nullifier,
    [withdraw x] returns exactly when some open commitment has an amount of
    at least [x]. *)
Theorem withdraw_succeeds_iff (x : Z) (r : string) w :
  reachable_fresh sha256 w →
  ((∃ w', withdraw sha256 x r w = (Ok "withdraw_tx_signature"%string, w'))
   ↔ ∃ c, c ∈ dict_values (commitments (self w)) ∧ x <= amount c).
Proof.
  intros Hw. split.
  - intros [w' E].
    apply reachable_fresh_reachable, reachable_ledger_ok in Hw.
    destruct (withdraw_Ok _ _ _ _ _ _ Hw E) as (_ & c & _ & _ & Ef & _).
    exists c. now apply first_fit_elem in Ef.
  - intros (c & Hc & Hx). eapply fresh_withdraw_fits; eauto.
Qed.

(** X11: on such a ledger, right after a deposit of [a] that brings a new
    nullifier, [withdraw x] returns for every [x] up to [a]. *)
Theorem deposit_then_withdraw (a x : Z) (r : string) w :
  reachable_fresh sha256 w → fresh_op sha256 (Deposit a) w = true →
  0 <= a < 2 ^ 64 → x <= a →
  ∃ w', withdraw sha256 x r (step sha256 (Deposit a) w)
        = (Ok "withdraw_tx_signature"%string, w').
Proof.
  intros Hw Hf Ha Hx.
  destruct (deposit_commitment_Some a w Ha) as [c E].
  destruct (deposit_commitment_amount _ _ _ _ E) as [Ea _].
  apply (fresh_withdraw_fits x r _ c); [now constructor | | lia].
  unfold step, run. rewrite (deposit_Some _ _ _ _ E). simpl.
  eapply dict_value_elem, dict_setitem_has.
Qed.

End ClientRunsFacts.

(** * Properties of [MoneroPrivacyClient] *)

(** ** The size of a SHA-256 digest *)

Section SHA256Facts.

Lemma length_be_bytes (len : nat) (n : Z) : length (be_bytes len n) = len.
Proof. unfold be_bytes. now rewrite length_rev, length_le_bytes. Qed.

Lemma SHA256_round_length (st : list Z) (k w : Z) :
  length (SHA256.round st k w) = length st.
Proof.
  destruct st as [|a [|b [|c [|d [|e [|f [|g [|h [|i t]]]]]]]]]; reflexivity.
Qed.

Lemma SHA256_rounds_length (ks win st : list Z) :
  length (SHA256.rounds ks win st) = length st.
Proof.
  revert win st. induction ks as [|k ks IH]; intros win st; simpl;
    [reflexivity|]. now rewrite IH, SHA256_round_length.
Qed.

Lemma SHA256_add_words_length (xs ys : list Z) :
  length xs = length ys → length (SHA256.add_words xs ys) = length xs.
Proof.
  revert ys. induction xs as [|x xs IH]; intros [|y ys] H; simpl in *;
    try discriminate; [reflexivity|]. f_equal. apply IH. lia.
Qed.

Lemma SHA256_compress_length (st : list Z) (block : bytes) :
  length (SHA256.compress st block) = length st.
Proof.
  unfold SHA256.compress. apply SHA256_add_words_length.
  now rewrite SHA256_rounds_length.
Qed.

(** A SHA-256 digest has 32 bytes. *)
Lemma SHA256_digest_length (msg : bytes) :
  length (SHA256.digest msg) = 32%nat.
Proof.
  unfold SHA256.digest.
  assert (Hst : ∀ blocks st,
            length (fold_left SHA256.compress blocks st) = length st).
  { induction blocks as [|b blocks IH]; intros st; simpl; [reflexivity|].
    now rewrite IH, SHA256_compress_length. }
  assert (Hcat : ∀ st : list Z,
            length (concat (map (be_bytes 4) st)) = (4 * length st)%nat).
  { induction st as [|x st IH]; [reflexivity|]. cbn [map concat].
    rewrite length_app, length_be_bytes, IH. simpl. lia. }
  cbv zeta. rewrite Hcat, Hst. reflexivity.
Qed.

End SHA256Facts.

Module MoneroFacts.
Import Monero.
Local Open Scope monero_scope.

Section KeysFacts.

Variable sha256 : bytes -> bytes.
Variable verify_key : bytes -> bytes.
Hypothesis digest_size : ∀ msg, length (sha256 msg) = 32%nat.

Implicit Types (g : Rng) (seed : bytes).

Lemma SigningKey_32 (k : bytes) : length k = 32%nat → SigningKey k = Return k.
Proof. unfold SigningKey. now intros ->. Qed.

Lemma SigningKey_Return (k k' : bytes) :
  SigningKey k = Return k' → k' = k ∧ length k = 32%nat.
Proof.
  unfold SigningKey. destruct (Nat.eqb_spec (length k) 32); [|discriminate].
  now intros [= <-].
Qed.

Lemma length_window (s : nat → byte) (from n : nat) :
  length (window s from n) = n.
Proof. unfold window. now rewrite length_map, length_seq. Qed.

Lemma restore_eq seed g :
  _restore_from_seed sha256 verify_key seed g =
  (Return
     {| private_spend_key := sha256 (encode "spend" ++ seed);
        public_spend_key := verify_key (sha256 (encode "spend" ++ seed));
        private_view_key :=
          sha256 (encode "view_key" ++ sha256 (encode "spend" ++ seed));
        public_view_key :=
          verify_key
            (sha256 (encode "view_key" ++ sha256 (encode "spend" ++ seed))) |},
   g).
Proof.
  unfold _restore_from_seed, bind, lift, ret.
  now rewrite !SigningKey_32 by apply digest_size.
Qed.

Lemma generate_eq g :
  _generate_key_pair sha256 verify_key g =
  (Return
     {| private_spend_key := window (stream g) (taken g) 32;
        public_spend_key := verify_key (window (stream g) (taken g) 32);
        private_view_key :=
          sha256 (encode "view_key" ++ window (stream g) (taken g) 32);
        public_view_key :=
          verify_key
            (sha256 (encode "view_key" ++ window (stream g) (taken g) 32)) |},
   {| stream := stream g; taken := (taken g + 32)%nat |}).
Proof.
  unfold _generate_key_pair, bind, lift, ret, random.
  fold (window (stream g) (taken g) 32).
  rewrite (SigningKey_32 (window _ _ _)) by apply length_window.
  now rewrite SigningKey_32 by apply digest_size.
Qed.

(** ** Keys: [__init__], [export_seed] *)

(** X12: with a hash of 32 bytes, [__init__] always returns, with or
    without a seed, and the key pair of the client is derived: the private
    view key is the hash of "view_key" followed by the private spend key,
    the public keys are those of the private keys, and both private keys
    have 32 bytes. *)
Theorem init_key_pair (seed : option bytes) g :
  ∃ client g',
    __init__ sha256 verify_key seed g = (Return client, g')
    ∧ derived sha256 verify_key (key_pair client)
    ∧ stream g' = stream g.
Proof.
  assert (Hgen : ∃ client g',
            bind (_generate_key_pair sha256 verify_key)
              (fun kp => ret {| key_pair := kp |}) g = (Return client, g')
            ∧ derived sha256 verify_key (key_pair client)
            ∧ stream g' = stream g).
  { unfold bind. rewrite generate_eq. do 2 eexists.
    split; [reflexivity|]. split; [|reflexivity].
    split; simpl; auto using length_window. }
  destruct seed as [[|x seed]|]; cbn [__init__]; [exact Hgen| |exact Hgen].
  unfold bind. rewrite restore_eq. do 2 eexists.
  split; [reflexivity|]. split; [|reflexivity]. split; simpl; auto.
Qed.

(** X13: a seed that is not empty is restored from without taking any
    randomness, the private spend key being the hash of "spend" followed by
    the seed; the empty seed is treated as no seed: the client then gets a
    random spend key, the next 32 bytes of the source. *)
Theorem init_seed_cases seed g :
  (seed ≠ [] →
   ∃ client, __init__ sha256 verify_key (Some seed) g = (Return client, g)
             ∧ private_spend_key (key_pair client)
               = sha256 (encode "spend" ++ seed))
  ∧ __init__ sha256 verify_key (Some []) g
    = __init__ sha256 verify_key None g
  ∧ ∃ client,
      __init__ sha256 verify_key None g
      = (Return client,
         {| stream := stream g; taken := (taken g + 32)%nat |})
      ∧ private_spend_key (key_pair client) = window (stream g) (taken g) 32.
Proof.
  split; [|split; [reflexivity|]].
  - intros Hne. destruct seed as [|x seed]; [done|]. cbn [__init__].
    unfold bind. rewrite restore_eq. eexists. split; reflexivity.
  - cbn [__init__]. unfold bind. rewrite generate_eq. eexists.
    split; reflexivity.
Qed.

(** X14: [export_seed] returns the hash of the private spend key. A client
    restored from it has as private spend key the hash of "spend" followed
    by that hash, and is the client exported from exactly when this is the
    private spend key it already had. *)
Theorem export_seed_restore (client : MoneroPrivacyClient) g :
  derived sha256 verify_key (key_pair client) →
  ∃ restored,
    __init__ sha256 verify_key (Some (export_seed sha256 client)) g
    = (Return restored, g)
    ∧ private_spend_key (key_pair restored)
      = sha256 (encode "spend"
                  ++ sha256 (private_spend_key (key_pair client)))
    ∧ (restored = client
       ↔ private_spend_key (key_pair client)
         = sha256 (encode "spend"
                     ++ sha256 (private_spend_key (key_pair client)))).
Proof.
  intros [Hview Hps Hpv _ _]. unfold export_seed.
  pose proof (digest_size (private_spend_key (key_pair client))) as Hlen.
  destruct (sha256 (private_spend_key (key_pair client))) as [|x e] eqn:E;
    [discriminate|].
  cbn [__init__]. unfold bind. rewrite restore_eq. eexists.
  split; [reflexivity|]. split; [reflexivity|]. split.
  - intros <-. reflexivity.
  - intros Hfix. destruct client as [[ps pbs pv pbv]]. simpl in *.
    subst pbs pbv pv. now rewrite <- Hfix.
Qed.

(** ** [get_primary_address] *)

(** X15: the primary address is the hexadecimal text of the byte 0x12, the
    two public keys and four checksum bytes: it begins with "12" and has
    twice 5 plus the sizes of the keys characters; two clients whose public
    spend keys have the same size and whose addresses are equal have the
    same public spend and view keys. *)
Theorem primary_address_faithful (client : MoneroPrivacyClient) :
  let a := get_primary_address sha256 client in
  String.length (address a)
  = (2 * (5 + length (public_spend_key (key_pair client))
            + length (public_view_key (key_pair client))))%nat
  ∧ (∃ rest, address a = String "1" (String "2" rest))
  ∧ ∀ other,
      length (public_spend_key (key_pair other))
      = length (public_spend_key (key_pair client)) →
      address (get_primary_address sha256 other) = address a →
      spend_key (get_primary_address sha256 other) = spend_key a
      ∧ view_key (get_primary_address sha256 other) = view_key a.
Proof.
  cbv zeta. unfold get_primary_address. cbn [address spend_key view_key].
  assert (Hck : ∀ m, length (firstn 4 (sha256 m)) = 4%nat).
  { intros m. rewrite length_firstn, digest_size. reflexivity. }
  split; [|split].
  - rewrite length_hex, !length_app, Hck. simpl. lia.
  - simpl. eauto.
  - intros other Hlen E. apply hex_inj in E.
    rewrite <- !app_assoc in E. simpl in E. injection E as E.
    apply app_inj_1 in E as [Es E]; [|assumption].
    split; [assumption|].
    apply app_inj_2 in E as [Ev _]; [assumption|]. now rewrite !Hck.
Qed.

(** ** [create_ring_signature] *)

Lemma random_list_eq (n : nat) g :
  random_list n g =
  (Return (map (fun j => window (stream g) (taken g + 32 * j) 32) (seq 0 n)),
   {| stream := stream g; taken := (taken g + 32 * n)%nat |}).
Proof.
  revert g. induction n as [|n IH]; intros g.
  - simpl. unfold ret. destruct g. simpl. do 2 f_equal. lia.
  - cbn [random_list]. unfold bind at 1. unfold random at 1.
    unfold bind at 1. rewrite IH. unfold ret. cbn [stream taken].
    fold (window (stream g) (taken g) 32).
    change (seq 0 (S n)) with (0%nat :: seq 1 n). cbn [map].
    f_equal; [f_equal|].
    + f_equal; [f_equal; lia|].
      rewrite <- seq_shift, map_map. apply map_ext. intros j.
      f_equal. lia.
    + f_equal. lia.
Qed.

Lemma getitem_cases {A} (l : list A) (i : Z) :
  let n := Z.of_nat (length l) in
  (- n <= i < n →
   ∃ x, getitem l i = Return x ∧ nth_error l (Z.to_nat (i mod n)) = Some x)
  ∧ (¬ (- n <= i < n) →
     getitem l i = Throw (IndexError "list index out of range")).
Proof.
  cbv zeta. unfold getitem. set (n := Z.of_nat (length l)). split.
  - intros Hi.
    assert (Hj : (if i <? 0 then i + n else i) = i mod n).
    { destruct (Z.ltb_spec i 0).
      - apply (Z.mod_unique_pos i n (-1)); lia.
      - symmetry. apply Z.mod_small. lia. }
    rewrite Hj. pose proof (Z.mod_pos_bound i n ltac:(lia)) as Hm.
    destruct (Z.leb_spec 0 (i mod n)); [|lia].
    destruct (Z.ltb_spec (i mod n) n); [|lia]. simpl.
    destruct (nth_error l (Z.to_nat (i mod n))) as [x|] eqn:E; [eauto|].
    apply nth_error_None in E. lia.
  - intros Hi. destruct (Z.ltb_spec i 0).
    + destruct (Z.leb_spec 0 (i + n)); [|reflexivity]. lia.
    + destruct (Z.leb_spec 0 i); [|lia].
      destruct (Z.ltb_spec i n); [lia | reflexivity].
Qed.

(** X16: [create_ring_signature] raises "Invalid key index" for an index of
    the ring size or more, and [IndexError] for an index below minus the
    ring size, in both cases before any randomness is taken; for every other
    index, negative ones included, it returns, and the key image is the hash
    of the private key followed by the ring member at the index counted
    modulo the ring size, so that a negative index [i] signs as [i + n]. *)
Theorem ring_signature_index
    (message : bytes) (i : Z) (sk : bytes) (ring : list bytes) g :
  let n := Z.of_nat (length ring) in
  let sign := create_ring_signature sha256 message in
  (n <= i →
   sign i sk ring g = (Throw (Builtin (ValueError "Invalid key index")), g))
  ∧ (i < - n →
     sign i sk ring g
     = (Throw (IndexError "list index out of range"), g))
  ∧ (- n <= i < n →
     ∃ member sig g',
       nth_error ring (Z.to_nat (i mod n)) = Some member
       ∧ sign i sk ring g = (Return sig, g')
       ∧ key_image sig = sha256 (sk ++ member))
  ∧ (- n <= i < 0 → sign i sk ring g = sign (i + n) sk ring g).
Proof.
  cbv zeta. unfold create_ring_signature.
  set (n := Z.of_nat (length ring)).
  destruct (getitem_cases ring i) as [Hin Hout]. fold n in Hin, Hout.
  split; [|split; [|split]].
  - intros Hi. destruct (Z.geb_spec i n); [reflexivity | lia].
  - intros Hi. destruct (Z.geb_spec i n); [lia|].
    unfold bind, lift. now rewrite Hout by lia.
  - intros Hi. destruct (Z.geb_spec i n); [lia|].
    destruct (Hin Hi) as (member & Eg & En).
    unfold bind at 1. unfold lift. rewrite Eg.
    unfold bind. rewrite random_list_eq. cbn [stream taken].
    rewrite random_list_eq. unfold ret. do 3 eexists.
    split; [exact En|]. split; reflexivity.
  - intros Hi. destruct (Z.geb_spec i n); [lia|].
    destruct (Z.geb_spec (i + n) n); [lia|].
    destruct (Hin ltac:(lia)) as (m1 & E1 & N1).
    destruct (getitem_cases ring (i + n)) as [Hin' _]. fold n in Hin'.
    destruct (Hin' ltac:(lia)) as (m2 & E2 & N2).
    assert (Em : (i + n) mod n = i mod n).
    { replace (i + n) with (i + 1 * n) by lia. apply Z.mod_add. lia. }
    rewrite Em in N2. assert (m2 = m1) as -> by congruence.
    unfold bind at 1 3. unfold lift. now rewrite E1, E2.
Qed.

(** X17: a ring signature has the ring it was given as members and, in
    ['c'] and in ['r'], one value of 32 bytes per member, cut one after the
    other from the source of randomness, first those of ['c'], then those of
    ['r']: 64 bytes per member in all. The message does not enter the
    signature: any other message gives the same result. *)
Theorem ring_signature_shape
    (message : bytes) (i : Z) (sk : bytes) (ring : list bytes) g
    (sig : RingSignature) g' :
  create_ring_signature sha256 message i sk ring g = (Return sig, g') →
  let n := length ring in
  ring_members sig = ring
  ∧ ring_c sig
    = map (fun j => window (stream g) (taken g + 32 * j) 32) (seq 0 n)
  ∧ ring_r sig
    = map (fun j => window (stream g) (taken g + 32 * n + 32 * j) 32)
        (seq 0 n)
  ∧ length (ring_c sig) = n ∧ length (ring_r sig) = n
  ∧ (∀ x, x ∈ ring_c sig ++ ring_r sig → length x = 32%nat)
  ∧ g' = {| stream := stream g; taken := (taken g + 64 * n)%nat |}
  ∧ ∀ message',
      create_ring_signature sha256 message' i sk ring g = (Return sig, g').
Proof.
  intros E. cbv zeta. pose proof E as E0.
  unfold create_ring_signature in E.
  destruct (i >=? Z.of_nat (length ring)); [discriminate|].
  unfold bind at 1 in E. unfold lift in E.
  destruct (getitem ring i) as [member|e]; [|discriminate].
  unfold bind in E. rewrite random_list_eq in E. cbn [stream taken] in E.
  rewrite random_list_eq in E. unfold ret in E. cbn [stream taken] in E.
  injection E as <- <-. cbn [ring_members ring_c ring_r].
  split; [reflexivity|]. split; [reflexivity|]. split; [reflexivity|].
  split; [now rewrite length_map, length_seq|].
  split; [now rewrite length_map, length_seq|].
  split; [|split].
  - intros x Hx. apply elem_of_app in Hx as [Hx|Hx];
      apply list_elem_of_In, in_map_iff in Hx as (j & <- & _);
      apply length_window.
  - f_equal. lia.
  - intros m. exact E0.
Qed.

(** ** [generate_stealth_address] *)

(** X18: a stealth address made for the primary address of a client never
    fails and takes 32 bytes of randomness, which it returns as the
    transaction public key; with a hash of 32 bytes the address has 64
    characters and is the hash of the transaction public key followed by the
    public spend key, so that it depends on the recipient through the public
    spend key alone; the output index is returned as given. *)
Theorem stealth_for_primary
    (client : MoneroPrivacyClient) (index : Z) g :
  ∃ out,
    generate_stealth_address sha256 (get_primary_address sha256 client)
      index g
    = (Return out, {| stream := stream g; taken := (taken g + 32)%nat |})
    ∧ tx_public_key out = window (stream g) (taken g) 32
    ∧ stealth out
      = hex (sha256 (tx_public_key out
                       ++ public_spend_key (key_pair client)))
    ∧ String.length (stealth out) = 64%nat
    ∧ output_index out = index
    ∧ ∀ other,
        public_spend_key (key_pair other)
        = public_spend_key (key_pair client) →
        generate_stealth_address sha256 (get_primary_address sha256 other)
          index g
        = (Return out, {| stream := stream g; taken := (taken g + 32)%nat |}).
Proof.
  unfold generate_stealth_address, bind, random, ret. eexists.
  split; [reflexivity|]. cbn [tx_public_key stealth output_index].
  split; [reflexivity|]. split; [reflexivity|].
  split; [now rewrite length_hex, digest_size|]. split; [reflexivity|].
  intros other E. cbn [get_primary_address spend_key]. now rewrite E.
Qed.

(** ** [create_ringct_output] *)

Lemma range_bit_div (a : Z) (i : nat) :
  range_bit a i = (a / 2 ^ Z.of_nat i) mod 2.
Proof.
  unfold range_bit. rewrite Z.shiftr_div_pow2 by lia.
  change 1 with (Z.ones 1). now rewrite Z.land_ones by lia.
Qed.

Lemma range_bit_01 (a : Z) (i : nat) : 0 <= range_bit a i < 2.
Proof. rewrite range_bit_div. apply Z.mod_pos_bound. lia. Qed.

Lemma bits_value_range (a : Z) (s n : nat) :
  bits_value (map (range_bit a) (seq s n))
  = (a / 2 ^ Z.of_nat s) mod 2 ^ Z.of_nat n.
Proof.
  revert s. induction n as [|n IH]; intros s.
  - simpl. now rewrite Z.mod_1_r.
  - cbn [seq map bits_value]. rewrite IH, range_bit_div.
    rewrite !Nat2Z.inj_succ, !Z.pow_succ_r by lia.
    rewrite (Z.mul_comm 2 (2 ^ Z.of_nat s)).
    rewrite <- Z.div_div by lia.
    now rewrite Z.rem_mul_r by lia.
Qed.

Lemma range_bitmap_over_eq (a : Z) (s n : nat) g :
  range_bitmap_over sha256 a (seq s n) g =
  (Return
     (map (fun j => sha256 ([byte_of_Z (range_bit a (s + j))]
                              ++ window (stream g) (taken g + 32 * j) 32))
        (seq 0 n)),
   {| stream := stream g; taken := (taken g + 32 * n)%nat |}).
Proof.
  revert s g. induction n as [|n IH]; intros s g.
  - simpl. unfold ret. destruct g. simpl. do 2 f_equal. lia.
  - cbn [seq range_bitmap_over bytes_of_ints].
    pose proof (range_bit_01 a s) as Hb.
    destruct (Z.leb_spec 0 (range_bit a s)); [|lia].
    destruct (Z.ltb_spec (range_bit a s) 256); [|lia]. cbn [andb].
    unfold bind at 1. unfold lift. unfold bind at 1. unfold random at 1.
    unfold bind at 1. rewrite IH. unfold ret. cbn [stream taken].
    fold (window (stream g) (taken g) 32).
    change (seq 0 (S n)) with (0%nat :: seq 1 n). cbn [map].
    f_equal; [f_equal|].
    + f_equal.
      * do 2 f_equal; [do 3 f_equal; lia | f_equal; lia].
      * rewrite <- seq_shift, map_map. apply map_ext. intros j.
        do 2 f_equal; [do 3 f_equal; lia | f_equal; lia].
    + f_equal. lia.
Qed.

Lemma create_ringct_output_eq (a : Z) (recipient : Address) g :
  create_ringct_output sha256 a recipient g =
  match to_bytes 8 a with
  | Ok b =>
      (Return
         {| commitment := sha256 (b ++ window (stream g) (taken g) 32);
            mask := window (stream g) (taken g) 32;
            range_bitmap :=
              map (fun j =>
                     sha256 ([byte_of_Z (range_bit a j)]
                               ++ window (stream g) (taken g + 32 + 32 * j) 32))
                (seq 0 64) |},
       {| stream := stream g; taken := (taken g + 2080)%nat |})
  | Raise e =>
      (Throw (Builtin e),
       {| stream := stream g; taken := (taken g + 32)%nat |})
  end.
Proof.
  unfold create_ringct_output, to_bytes8.
  unfold bind at 1. unfold random at 1. unfold bind at 1. unfold lift.
  destruct (to_bytes 8 a) as [b|e]; [|reflexivity].
  unfold bind. rewrite range_bitmap_over_eq. unfold ret. cbn [stream taken].
  fold (window (stream g) (taken g) 32). f_equal. f_equal. lia.
Qed.

(** X19: [create_ringct_output] returns exactly for amounts from 0 to
    [2^64 - 1], taking 2080 bytes of randomness: the first 32 are the mask,
    the commitment is the hash of the amount on eight bytes followed by the
    mask, and the range bitmap has 64 entries. For any other amount it raises
    [OverflowError] after the mask has been drawn. *)
Theorem ringct_outcome (a : Z) (recipient : Address) g :
  (0 <= a < 2 ^ 64 →
   ∃ out,
     create_ringct_output sha256 a recipient g
     = (Return out, {| stream := stream g; taken := (taken g + 2080)%nat |})
     ∧ mask out = window (stream g) (taken g) 32
     ∧ commitment out = sha256 (le_bytes 8 a ++ mask out)
     ∧ length (range_bitmap out) = 64%nat)
  ∧ (¬ (0 <= a < 2 ^ 64) →
     ∃ msg,
       create_ringct_output sha256 a recipient g
       = (Throw (Builtin (OverflowError msg)),
          {| stream := stream g; taken := (taken g + 32)%nat |})).
Proof.
  rewrite create_ringct_output_eq. split; intros Ha.
  - rewrite (to_bytes_ok a Ha). eexists. split; [reflexivity|].
    cbn [mask commitment range_bitmap]. split; [reflexivity|].
    split; [reflexivity|]. now rewrite length_map, length_seq.
  - destruct (to_bytes_range a Ha) as [msg ->]. eauto.
Qed.

(** X20: entry [j] of the range bitmap is the hash of one byte holding bit
    [j] of the amount followed by the 32 random bytes drawn for it; the bits
    are 0 or 1 and, least significant first, add up to the amount. The
    recipient does not enter the output. *)
Theorem ringct_range_bits
    (a : Z) (recipient : Address) g (out : RingCTOutput) g' :
  create_ringct_output sha256 a recipient g = (Return out, g') →
  range_bitmap out
  = map (fun j => sha256 ([byte_of_Z (range_bit a j)]
                            ++ window (stream g) (taken g + 32 + 32 * j) 32))
      (seq 0 64)
  ∧ (∀ j, 0 <= range_bit a j < 2)
  ∧ bits_value (map (range_bit a) (seq 0 64)) = a
  ∧ ∀ recipient',
      create_ringct_output sha256 a recipient' g = (Return out, g').
Proof.
  intros E. pose proof E as E0. rewrite create_ringct_output_eq in E.
  destruct (to_bytes 8 a) as [b|e] eqn:Eb; [|discriminate].
  assert (Ha : 0 <= a < 2 ^ 64).
  { destruct (Z_le_dec 0 a) as [H0|H0], (Z_lt_dec a (2 ^ 64)) as [H1|H1];
      [lia | | | ];
      (destruct (to_bytes_range a) as [msg Hm]; [lia | congruence]). }
  injection E as <- <-. cbn [range_bitmap].
  split; [reflexivity|]. split; [apply range_bit_01|]. split.
  - rewrite bits_value_range. change (2 ^ Z.of_nat 0) with 1.
    rewrite Z.div_1_r. apply Z.mod_small.
    change (2 ^ Z.of_nat 64) with (2 ^ 64). exact Ha.
  - intros recipient'. exact E0.
Qed.

End KeysFacts.
End MoneroFacts.

(** * The further properties on concrete runs *)

Lemma new_client_reachable : reachable SHA256.digest new_client.
Proof. unfold new_client. apply reach_initial. Qed.

Lemma two_deposits_open :
  ∃ k c, (k, c) ∈ commitments (self two_deposits).
Proof.
  unfold two_deposits, run_ops. cbn [fold_left].
  match goal with
  | |- context [step SHA256.digest (Deposit 500000000) ?w] =>
      destruct (step_deposit SHA256.digest 500000000 w) as (c & _ & ->);
        [lia|]
  end.
  exists (hex (value c)), c. cbn [self commitments set_commitments].
  apply dict_setitem_has.
Qed.

Lemma open_commitments_recomputable_witness :
  ∃ k c,
    (k, c) ∈ commitments (self two_deposits)
    ∧ k = hex (value c)
    ∧ value c = SHA256.digest
                  (encode (hex (public_key (self two_deposits)))
                     ++ le_bytes 8 (amount c) ++ nonce c)
    ∧ length (nonce c) = 32%nat
    ∧ 0 <= amount c < 2 ^ 64
    ∧ from_bytes_little (le_bytes 8 (amount c)) = amount c.
Proof.
  destruct two_deposits_open as (k & c & Hin). exists k, c.
  split; [exact Hin|].
  exact (open_commitments_recomputable SHA256.digest two_deposits k c
           two_deposits_reachable Hin).
Defined.

Lemma deposit_balance_witness :
  ∃ c, deposit_commitment SHA256.digest 7 two_deposits = Some c
       ∧ balance (step SHA256.digest (Deposit 7) two_deposits)
         = balance two_deposits + 7
           - match dict_get (hex (value c))
                     (commitments (self two_deposits)) with
             | Some old => amount old
             | None => 0
             end.
Proof.
  destruct (deposit_commitment_Some SHA256.digest 7 two_deposits)
    as [c E]; [lia|].
  exists c. split; [exact E|].
  exact (proj1 (deposit_balance SHA256.digest 7 two_deposits c E)).
Defined.

Lemma balance_bounds_witness :
  0 <= balance two_deposits
    <= (2 ^ 64 - 1) * Z.of_nat (length (commitments (self two_deposits))).
Proof.
  exact (balance_bounds SHA256.digest two_deposits two_deposits_reachable).
Defined.

Lemma withdraw_within_balance_witness :
  fst (withdraw SHA256.digest 500000000 "bob" two_deposits)
  = Ok "withdraw_tx_signature"%string
  ∧ 500000000 <= balance two_deposits
  ∧ ∃ p, fst (generate_balance_proof 500000000 two_deposits) = Ok p.
Proof.
  assert (E : fst (withdraw SHA256.digest 500000000 "bob" two_deposits)
              = Ok "withdraw_tx_signature"%string) by (vm_compute; reflexivity).
  split; [exact E|].
  destruct (withdraw_within_balance SHA256.digest 500000000 "bob" two_deposits
              "withdraw_tx_signature"
              (snd (withdraw SHA256.digest 500000000 "bob" two_deposits))
              two_deposits_reachable) as (H1 & H2 & _).
  - rewrite <- E. apply surjective_pairing.
  - split; [exact H1 | exact H2].
Defined.

Lemma balance_proof_hides_balance_witness :
  5 <= balance two_deposits ∧ 5 <= balance small_deposits
  ∧ fst (generate_balance_proof 5 two_deposits)
    = fst (generate_balance_proof 5 small_deposits).
Proof.
  assert (H1 : 5 <= balance two_deposits) by (vm_compute; discriminate).
  assert (H2 : 5 <= balance small_deposits) by (vm_compute; discriminate).
  split; [exact H1|]. split; [exact H2|].
  exact (proj1 (balance_proof_hides_balance 5 two_deposits small_deposits
                  H1 H2)).
Defined.

Lemma nullifier_count_witness :
  size (nullifiers (self (run_ops SHA256.digest busy_ops new_client)))
  = (size (nullifiers (self new_client))
     + length (spend_log SHA256.digest busy_ops new_client))%nat.
Proof.
  exact (proj1 (nullifier_count SHA256.digest busy_ops new_client
                  new_client_reachable)).
Defined.

Lemma withdraw_succeeds_iff_witness :
  (∃ w', withdraw SHA256.digest 7 "bob" busy_client
         = (Ok "withdraw_tx_signature"%string, w'))
  ↔ ∃ c, c ∈ dict_values (commitments (self busy_client)) ∧ 7 <= amount c.
Proof.
  exact (withdraw_succeeds_iff SHA256.digest 7 "bob" busy_client
           busy_client_fresh).
Defined.

Lemma deposit_then_withdraw_witness :
  ∃ w', withdraw SHA256.digest 4 "bob"
          (step SHA256.digest (Deposit 9) busy_client)
        = (Ok "withdraw_tx_signature"%string, w').
Proof.
  apply (deposit_then_withdraw SHA256.digest 9 4 "bob" busy_client
           busy_client_fresh).
  - vm_compute. reflexivity.
  - lia.
  - lia.
Defined.

Lemma sample_monero_derived :
  Monero.derived SHA256.digest sample_verify_key
    (Monero.key_pair sample_monero).
Proof.
  unfold sample_monero.
  split;
    cbn [Monero.key_pair Monero.private_spend_key Monero.public_spend_key
         Monero.private_view_key Monero.public_view_key];
    [reflexivity | reflexivity | reflexivity
     | apply SHA256_digest_length | apply SHA256_digest_length].
Qed.

Lemma init_key_pair_witness :
  ∃ client g',
    Monero.__init__ SHA256.digest sample_verify_key (Some sample_nonce)
      sample_rng = (Monero.Return client, g')
    ∧ Monero.derived SHA256.digest sample_verify_key (Monero.key_pair client)
    ∧ Monero.stream g' = Monero.stream sample_rng.
Proof.
  exact (MoneroFacts.init_key_pair SHA256.digest sample_verify_key
           SHA256_digest_length (Some sample_nonce) sample_rng).
Defined.

Lemma init_seed_cases_witness :
  Monero.__init__ SHA256.digest sample_verify_key (Some []) sample_rng
  = Monero.__init__ SHA256.digest sample_verify_key None sample_rng.
Proof.
  exact (proj1 (proj2 (MoneroFacts.init_seed_cases SHA256.digest
                         sample_verify_key SHA256_digest_length
                         sample_nonce sample_rng))).
Defined.

Lemma export_seed_restore_witness :
  ∃ restored,
    Monero.__init__ SHA256.digest sample_verify_key
      (Some (Monero.export_seed SHA256.digest sample_monero)) sample_rng
    = (Monero.Return restored, sample_rng)
    ∧ Monero.private_spend_key (Monero.key_pair restored)
      = SHA256.digest
          (encode "spend"
             ++ SHA256.digest
                  (Monero.private_spend_key (Monero.key_pair sample_monero))).
Proof.
  destruct (MoneroFacts.export_seed_restore SHA256.digest sample_verify_key
              SHA256_digest_length sample_monero sample_rng
              sample_monero_derived) as (restored & E & Hk & _).
  exists restored. split; [exact E | exact Hk].
Defined.

Lemma primary_address_faithful_witness :
  String.length
    (Monero.address (Monero.get_primary_address SHA256.digest sample_monero))
  = (2 * (5 + length (Monero.public_spend_key (Monero.key_pair sample_monero))
            + length (Monero.public_view_key
                        (Monero.key_pair sample_monero))))%nat.
Proof.
  exact (proj1 (MoneroFacts.primary_address_faithful SHA256.digest
                  SHA256_digest_length sample_monero)).
Defined.

Lemma sample_ring_signs :
  ∃ sig g',
    Monero.create_ring_signature SHA256.digest (encode "tx") (-1)
      sample_private_key sample_ring sample_rng = (Monero.Return sig, g').
Proof. vm_compute. do 2 eexists. reflexivity. Qed.

Lemma ring_signature_shape_witness :
  ∃ sig g',
    Monero.create_ring_signature SHA256.digest (encode "tx") (-1)
      sample_private_key sample_ring sample_rng = (Monero.Return sig, g')
    ∧ Monero.ring_members sig = sample_ring
    ∧ length (Monero.ring_c sig) = length sample_ring
    ∧ length (Monero.ring_r sig) = length sample_ring.
Proof.
  destruct sample_ring_signs as (sig & g' & E). exists sig, g'.
  split; [exact E|].
  destruct (MoneroFacts.ring_signature_shape SHA256.digest (encode "tx") (-1)
              sample_private_key sample_ring sample_rng sig g' E)
    as (Hm & _ & _ & Hc & Hr & _).
  split; [exact Hm|]. split; [exact Hc | exact Hr].
Defined.

Lemma stealth_for_primary_witness :
  ∃ out,
    Monero.generate_stealth_address SHA256.digest
      (Monero.get_primary_address SHA256.digest sample_monero) 0 sample_rng
    = (Monero.Return out,
       {| Monero.stream := Monero.stream sample_rng;
          Monero.taken := (Monero.taken sample_rng + 32)%nat |})
    ∧ String.length (Monero.stealth out) = 64%nat.
Proof.
  destruct (MoneroFacts.stealth_for_primary SHA256.digest
              SHA256_digest_length sample_monero 0 sample_rng)
    as (out & E & _ & _ & Hl & _).
  exists out. split; [exact E | exact Hl].
Defined.

Lemma sample_ringct_returns :
  ∃ out g',
    Monero.create_ringct_output SHA256.digest 1000000000
      (Monero.get_primary_address SHA256.digest sample_monero) sample_rng
    = (Monero.Return out, g').
Proof.
  rewrite MoneroFacts.create_ringct_output_eq, to_bytes_ok by lia. eauto.
Qed.

Lemma ringct_range_bits_witness :
  Monero.bits_value (map (Monero.range_bit 1000000000) (seq 0 64))
  = 1000000000.
Proof.
  destruct sample_ringct_returns as (out & g' & E).
  exact (proj1 (proj2 (proj2
           (MoneroFacts.ringct_range_bits SHA256.digest 1000000000
              (Monero.get_primary_address SHA256.digest sample_monero)
              sample_rng out g' E)))).
Defined.
